(** * A racing car on a bounded track: shallow embedding of [car.py]

    The program simulates one car driving through a corridor given by two
    boundary curves: [get_surrounding] casts four rays and measures the
    distance to the boundary, [run] hands the readings to a decision
    function and [update] integrates the motion and rolls an illegal move
    back; [utility] scores the recorded trajectory.

    The embedding: NumPy's float64 numbers are idealised as real numbers,
    so rounding, infinities and NaN are outside the model.  NumPy arrays
    are lists; positions and velocities, whose shape never changes, are
    pairs, while the acceleration is a list, since its shape is whatever
    the decision function returns.  A method of [Car] is a function from
    the car to a result and the car after the call; a Python exception is
    a [Raise] result, after which the run ends. *)

From Stdlib Require Import Reals Lra Lia List ZArith Bool Arith Sorted.
Import ListNotations.
Open Scope R_scope.

(** ** Comparisons on numbers, as booleans *)

Definition Rltb (x y : R) : bool := if Rlt_dec x y then true else false.
Definition Rleb (x y : R) : bool := if Rle_dec x y then true else false.
Definition Reqb (x y : R) : bool := if Req_dec_T x y then true else false.

Notation "x <? y" := (Rltb x y) : R_scope.
Notation "x <=? y" := (Rleb x y) : R_scope.
Notation "x >? y" := (Rltb y x) : R_scope.
Notation "x >=? y" := (Rleb y x) : R_scope.
Notation "x =? y" := (Reqb x y) : R_scope.

(** ** Exceptions *)

Inductive exn : Type := ValueError | IndexError.

Inductive result (A : Type) : Type :=
| Ok (a : A)
| Raise (e : exn).
Arguments Ok {A} a.
Arguments Raise {A} e.

Definition bindR {A B} (m : result A) (k : A -> result B) : result B :=
  match m with
  | Ok a => k a
  | Raise e => Raise e
  end.

Notation "x <~ m ;; k" := (bindR m (fun x => k))
  (at level 61, m at next level, right associativity).

Fixpoint mapR {A B} (f : A -> result B) (l : list A) : result (list B) :=
  match l with
  | [] => Ok []
  | a :: l' => b <~ f a ;; bs <~ mapR f l' ;; Ok (b :: bs)
  end.

(** ** The NumPy functions the program calls *)

Notation "'vec2'" := (R * R)%type.
Notation "'mat2'" := ((R * R) * (R * R))%type.

Module np.

(** [np.zeros((2,))] *)
Definition zeros2 : vec2 := (0, 0).

(** [np.eye(2)] *)
Definition eye2 : mat2 := ((1, 0), (0, 1)).

(** [m.T] of a 2x2 array *)
Definition T (m : mat2) : mat2 :=
  ((fst (fst m), fst (snd m)), (snd (fst m), snd (snd m))).

(** [a.dot(m)] of an (n,2) array and a 2x2 array *)
Definition dot (a : list vec2) (m : mat2) : list vec2 :=
  map (fun e => (fst e * fst (fst m) + snd e * fst (snd m),
                 fst e * snd (fst m) + snd e * snd (snd m))) a.

(** [np.linalg.norm(v)] of a vector of two components *)
Definition norm (v : vec2) : R := sqrt (fst v * fst v + snd v * snd v).

(** [np.arange(n)] *)
Definition arange (n : nat) : list R := map INR (seq 0 n).

(** [np.sign] *)
Definition sign (x : R) : R :=
  if x <? 0 then -1 else if x =? 0 then 0 else 1.

(** [np.diff] of a one-dimensional array *)
Fixpoint diff (a : list R) : list R :=
  match a with
  | x :: ((y :: _) as a') => (y - x) :: diff a'
  | _ => []
  end.

(** [np.argwhere(a).flatten()] of a one-dimensional array: the indices of
    the entries that are not zero, in increasing order *)
Fixpoint argwhere_from (i : nat) (a : list R) : list nat :=
  match a with
  | [] => []
  | x :: a' => if x =? 0 then argwhere_from (S i) a' else i :: argwhere_from (S i) a'
  end.
Definition argwhere (a : list R) : list nat := argwhere_from 0 a.

(** [a - b] of two one-dimensional arrays, with NumPy's broadcasting: equal
    lengths subtract pointwise, a length of one is stretched, anything else
    raises [ValueError]. *)
Definition sub (a b : list R) : result (list R) :=
  if (length a =? length b)%nat then Ok (map (fun p => fst p - snd p) (combine a b))
  else match a, b with
       | [x], _ => Ok (map (fun y => x - y) b)
       | _, [y] => Ok (map (fun x => x - y) a)
       | _, _ => Raise ValueError
       end.

(** [v += a] for [v] of shape (2,) and a one-dimensional [a]: the result
    must keep the shape of [v]. *)
Definition iadd2 (v : vec2) (a : list R) : result vec2 :=
  match a with
  | [x] => Ok (fst v + x, snd v + x)
  | [x; y] => Ok (fst v + x, snd v + y)
  | _ => Raise ValueError
  end.

(** [np.max] of a one-dimensional array *)
Definition max (a : list R) : result R :=
  match a with
  | [] => Raise ValueError
  | x :: a' => Ok (fold_left Rmax a' x)
  end.

(** [np.argmax] of a one-dimensional array: one pass that keeps the best
    entry seen and replaces it only by a strictly larger one. *)
Fixpoint argmax_from (i : nat) (best : R) (bi : nat) (a : list R) : nat :=
  match a with
  | [] => bi
  | x :: a' => if x >? best then argmax_from (S i) x i a'
               else argmax_from (S i) best bi a'
  end.
Definition argmax (a : list R) : result nat :=
  match a with
  | [] => Raise ValueError
  | x :: a' => Ok (argmax_from 1 x 0 a')
  end.

(** The index search of [np.interp]: the loop
    [for (i = 1; i < len && key >= arr[i]; ++i); return i - 1]
    of NumPy's [binary_search_with_guess], which NumPy runs on arrays of at
    most four samples.  On longer arrays NumPy bisects instead; on a
    nondecreasing array the bisection returns the same index as this loop,
    on an array that is not sorted it may return another one.  Statements
    about the index that is found therefore assume sorted sample
    positions. *)
Fixpoint search_from (key : R) (i : nat) (arr : list R) : nat :=
  match arr with
  | [] => i
  | a :: arr' => if key >=? a then search_from key (S i) arr' else i
  end.
Definition binary_search (key : R) (arr : list R) : nat :=
  (search_from key 1 (tl arr) - 1)%nat.

(** [np.interp(x, xp, fp)] for a scalar [x], after NumPy's [arr_interp]:
    outside the range of [xp] the end values of [fp], at a sample point the
    sample itself, between two sample points the line through them. *)
Definition interp (x : R) (xp fp : list R) : result R :=
  match xp with
  | [] => Raise ValueError
  | x0 :: _ =>
      if negb (length fp =? length xp)%nat then Raise ValueError
      else if x >? last xp 0 then Ok (last fp 0)
      else if x <? x0 then Ok (nth 0 fp 0)
      else
        let j := binary_search x xp in
        if (j =? length xp - 1)%nat then Ok (nth j fp 0)
        else if nth j xp 0 =? x then Ok (nth j fp 0)
        else
          let slope := (nth (S j) fp 0 - nth j fp 0) / (nth (S j) xp 0 - nth j xp 0) in
          Ok (slope * (x - nth j xp 0) + nth j fp 0)
  end.

End np.

(** [normalize(v)] *)
Definition normalize (v : vec2) : vec2 :=
  let norm := np.norm v in
  if norm =? 0 then v else (fst v / norm, snd v / norm).

(** ** The track and the car *)

(** [track] is the triple [read_track] returns: [track[0]] the sample
    positions, [track[1]] the lower and [track[2]] the upper boundary. *)
Record Track : Type := mkTrack {
  xs : list R;
  lower : list R;
  upper : list R
}.

(** The attributes of a [Car] that its methods assign. *)
Record Car : Type := mkCar {
  track : Track;
  pos : vec2;
  accl : list R;
  vel : vec2;
  last_vel : vec2;
  last_pos : vec2;
  pos_history : list vec2;
  vel_history : list vec2;
  accl_history : list (list R);
  end_ : R
}.

(** Attributes that [__init__] sets to literals and no method assigns. *)
Definition eyes : list vec2 := [(0, 1); (0, -1); (1, 1); (1, -1)].
Definition max_dist : R := 1000.
Definition max_vel : vec2 := (25, 25).

(** ** Methods: state passing over the car, with exceptions *)

Definition M (A : Type) : Type := Car -> result (A * Car).

Definition ret {A} (a : A) : M A := fun c => Ok (a, c).
Definition bind {A B} (m : M A) (k : A -> M B) : M B :=
  fun c => match m c with
           | Ok (a, c') => k a c'
           | Raise e => Raise e
           end.
Definition gets {A} (f : Car -> A) : M A := fun c => Ok (f c, c).
Definition modify (f : Car -> Car) : M unit := fun c => Ok (tt, f c).
Definition lift {A} (r : result A) : M A :=
  fun c => match r with
           | Ok a => Ok (a, c)
           | Raise e => Raise e
           end.
Definition when (b : bool) (m : M unit) : M unit := if b then m else ret tt.

Notation "x <- m ;; k" := (bind m (fun x => k))
  (at level 61, m at next level, right associativity).
Notation "m ;;; k" := (bind m (fun _ => k))
  (at level 61, right associativity).

Fixpoint mapM {A B} (f : A -> M B) (l : list A) : M (list B) :=
  match l with
  | [] => ret []
  | a :: l' => b <- f a ;; bs <- mapM f l' ;; ret (b :: bs)
  end.

(** Assignments to the attributes of [self]. *)
Definition set_pos (p : vec2) (c : Car) : Car :=
  mkCar (track c) p (accl c) (vel c) (last_vel c) (last_pos c)
        (pos_history c) (vel_history c) (accl_history c) (end_ c).
Definition set_accl (a : list R) (c : Car) : Car :=
  mkCar (track c) (pos c) a (vel c) (last_vel c) (last_pos c)
        (pos_history c) (vel_history c) (accl_history c) (end_ c).
Definition set_vel (v : vec2) (c : Car) : Car :=
  mkCar (track c) (pos c) (accl c) v (last_vel c) (last_pos c)
        (pos_history c) (vel_history c) (accl_history c) (end_ c).
Definition set_last_vel (v : vec2) (c : Car) : Car :=
  mkCar (track c) (pos c) (accl c) (vel c) v (last_pos c)
        (pos_history c) (vel_history c) (accl_history c) (end_ c).
Definition set_last_pos (p : vec2) (c : Car) : Car :=
  mkCar (track c) (pos c) (accl c) (vel c) (last_vel c) p
        (pos_history c) (vel_history c) (accl_history c) (end_ c).
Definition append_history (c : Car) : Car :=
  mkCar (track c) (pos c) (accl c) (vel c) (last_vel c) (last_pos c)
        (pos_history c ++ [pos c]) (vel_history c ++ [vel c])
        (accl_history c ++ [accl c]) (end_ c).

(** [np.random.uniform(low, high)], given the sample [u] of the unit
    interval that the generator draws. *)
Definition uniform (low high u : R) : R := low + (high - low) * u.

(** [Car.__init__]; [u] is the one random sample the constructor draws. *)
Definition init (track : Track) (u : R) : result Car :=
  match xs track, lower track, upper track with
  | x0 :: _, l0 :: _, u0 :: _ =>
      let pos := (x0 + 1, uniform ((l0 + u0) / 4) (3 * (l0 + u0) / 4) u) in
      Ok (mkCar track pos [0; 0] np.zeros2 np.zeros2 np.zeros2
                [pos] [np.zeros2] [[0; 0]] (last (xs track) 0))
  | _, _, _ => Raise IndexError
  end.

(** [self.track_at], the closure stored by [__init__] *)
Definition track_at (x : R) : M (R * R) :=
  tr <- gets track ;;
  lo <- lift (np.interp x (xs tr) (lower tr)) ;;
  hi <- lift (np.interp x (xs tr) (upper tr)) ;;
  ret (lo, hi).

(** [Car.is_legal] *)
Definition is_legal : M bool :=
  p <- gets pos ;;
  t <- track_at (fst p) ;;
  e <- gets end_ ;;
  ret (((fst t <? snd p) && (snd p <? snd t)) && ((0 <? fst p) && (fst p <? e))).

(** [Car.get_surrounding].  Its one in-place operation, [vision_tensor +=],
    writes to an array that the call has built itself; [pos] and [vel],
    which [run] passes as the car's own arrays, are only read. *)
Definition get_surrounding (pos vel : vec2) : M (list R) :=
  tr <- gets track ;;
  let rot_matrix :=
    if negb (np.norm vel =? 0) then
      let v1 := normalize vel in np.T (v1, (- snd v1, fst v1))
    else np.eye2 in
  let rotated_eyes := np.dot eyes (np.T rot_matrix) in
  let xvals := np.arange (length (xs tr)) in
  let vision_tensor :=
    map (fun k => map (fun e => (fst e * k + fst pos, snd e * k + snd pos))
                      rotated_eyes) xvals in
  mapM (fun i =>
          let boundary :=
            if snd (nth i eyes (0, 0)) >? 0 then upper tr else lower tr in
          d <- lift (np.sub (map (fun row => snd (nth i row (0, 0))) vision_tensor)
                            boundary) ;;
          let idx := np.argwhere (np.diff (map np.sign d)) in
          (* try: *)
          pts <- lift (mapR (fun j => match nth_error vision_tensor j with
                                      | Some row => Ok (nth i row (0, 0))
                                      | None => Raise IndexError
                                      end) idx) ;;
          match pts with
          | [p] => ret (sqrt ((fst p - fst pos) * (fst p - fst pos)
                              + (snd p - snd pos) * (snd p - snd pos)))
          (* except ValueError: the reshape to two entries failed *)
          | _ => ret max_dist
          end)
       (seq 0 (length eyes)).

(** [Car.update], statement by statement.  Lines 93-94: the snapshot of
    the state before the step. *)
Definition snapshot : M unit :=
  p <- gets pos ;; modify (set_last_pos p) ;;;
  v <- gets vel ;; modify (set_last_vel v).

(** Lines 96-103: the four clamping tests on the velocity. *)
Definition clamp : M unit :=
  v <- gets vel ;;
  when (fst v >? fst max_vel) (modify (set_vel (fst max_vel, snd v))) ;;;
  v <- gets vel ;;
  when (fst v <? 0) (modify (set_vel (0, snd v))) ;;;
  v <- gets vel ;;
  when (snd v >? snd max_vel) (modify (set_vel (fst v, snd max_vel))) ;;;
  v <- gets vel ;;
  when (snd v <? - snd max_vel) (modify (set_vel (fst v, - snd max_vel))).

(** Line 104: [self.pos += self.vel]. *)
Definition integrate : M unit :=
  p <- gets pos ;; v <- gets vel ;;
  modify (set_pos (fst p + fst v, snd p + snd v)).

(** Lines 105-110: the legality test and its two branches.  After
    [self.pos = self.last_pos] both names hold one array; nothing writes to
    it before the next [update] rebinds [last_pos] to a fresh copy, and the
    histories hold copies, so the car is modelled by the values it holds. *)
Definition settle : M unit :=
  legal <- is_legal ;;
  if legal : bool then
    v <- gets vel ;; a <- gets accl ;;
    v' <- lift (np.iadd2 v a) ;;
    modify (set_vel v')
  else
    lp <- gets last_pos ;; modify (set_pos lp) ;;;
    modify (set_vel np.zeros2) ;;;
    modify (set_accl [0; 0]).

(** Lines 112-114: the three appends to the history. *)
Definition log_history : M unit := modify append_history.

Definition update : M unit :=
  snapshot ;;; clamp ;;; integrate ;;; settle ;;; log_history.

(** [Car.run]; the decision function may itself raise. *)
Definition run (accl_function : list R -> result (list R)) : M (list R) :=
  p <- gets pos ;; v <- gets vel ;;
  dist <- get_surrounding p v ;;
  lp <- gets last_pos ;; lv <- gets last_vel ;;
  last_dist <- get_surrounding lp lv ;;
  v <- gets vel ;; lv <- gets last_vel ;;
  let params := dist ++ [fst v; snd v] ++ last_dist ++ [fst lv; snd lv] in
  a <- lift (accl_function params) ;;
  modify (set_accl a) ;;;
  update ;;;
  ret params.

(** [Car.utility] *)
Definition utility : M (R * Z) :=
  h <- gets pos_history ;;
  x_pos <- lift (match h with
                 | [] => Raise IndexError
                 | _ => Ok (map fst h)
                 end) ;;
  max_dist <- lift (np.max x_pos) ;;
  e <- gets end_ ;;
  time <- (if max_dist >=? e - 2
           then i <- lift (np.argmax x_pos) ;; ret (Z.of_nat i)
           else ret (-1)%Z) ;;
  ret (max_dist, time).

(** Any number of steps; an exception ends the run. *)
Fixpoint steps (accl_function : list R -> result (list R)) (n : nat) (c : Car)
  : result Car :=
  match n with
  | O => Ok c
  | S n' => match run accl_function c with
            | Ok (_, c') => steps accl_function n' c'
            | Raise e => Raise e
            end
  end.

(** ** Closed forms used in the statements *)

(** The velocity after the four clamping tests. *)
Definition clamp_vel (v : vec2) : vec2 :=
  let v1 := if fst v >? fst max_vel then (fst max_vel, snd v) else v in
  let v2 := if fst v1 <? 0 then (0, snd v1) else v1 in
  let v3 := if snd v2 >? snd max_vel then (fst v2, snd max_vel) else v2 in
  if snd v3 <? - snd max_vel then (fst v3, - snd max_vel) else v3.

Definition vadd (p v : vec2) : vec2 := (fst p + fst v, snd p + snd v).

(** The test of [is_legal] at a position [p]. *)
Definition legal_at (tr : Track) (e : R) (p : vec2) : result bool :=
  lo <~ np.interp (fst p) (xs tr) (lower tr) ;;
  hi <~ np.interp (fst p) (xs tr) (upper tr) ;;
  Ok (((lo <? snd p) && (snd p <? hi)) && ((0 <? fst p) && (fst p <? e))).

(** The legality predicate of the track: the lateral coordinate strictly
    between the two interpolated bounds, the forward coordinate strictly
    between zero and the end. *)
Definition Legal (tr : Track) (e : R) (p : vec2) : Prop :=
  exists lo hi,
    np.interp (fst p) (xs tr) (lower tr) = Ok lo /\
    np.interp (fst p) (xs tr) (upper tr) = Ok hi /\
    lo < snd p < hi /\ 0 < fst p < e.

(** The three arrays of a track have one length. *)
Definition aligned (tr : Track) : Prop :=
  length (lower tr) = length (xs tr) /\ length (upper tr) = length (xs tr).

(** A method that reads the car and assigns nothing. *)
Definition read_only {A} (m : M A) : Prop :=
  forall c a c', m c = Ok (a, c') -> c' = c.

(** Sample positions that grow strictly from each index to the next. *)
Definition increasing (l : list R) : Prop :=
  forall i j, (i < j < length l)%nat -> nth i l 0 < nth j l 0.

(** Sample positions that never fall from one index to a later one. *)
Definition nondecreasing (l : list R) : Prop :=
  forall i j, (i <= j < length l)%nat -> nth i l 0 <= nth j l 0.

(** The track of the scenarios: three samples, a corridor of width ten. *)
Definition track3 : Track := mkTrack [0; 10; 20] [-5; -5; -5] [5; 5; 5].

(** The car after the snapshot, the clamping and the integration of one
    [update], before the legality test. *)
Definition tentative (c : Car) : Car :=
  set_pos (vadd (pos c) (clamp_vel (vel c)))
    (set_vel (clamp_vel (vel c))
       (set_last_vel (vel c) (set_last_pos (pos c) c))).

(** The pieces of [get_surrounding] as functions of the track, the position
    and the velocity. *)
Definition rot_matrix (vel : vec2) : mat2 :=
  if negb (np.norm vel =? 0) then
    let v1 := normalize vel in np.T (v1, (- snd v1, fst v1))
  else np.eye2.

Definition rotated_eyes (vel : vec2) : list vec2 :=
  np.dot eyes (np.T (rot_matrix vel)).

Definition vision_tensor (n : nat) (pos vel : vec2) : list (list vec2) :=
  map (fun k => map (fun e => (fst e * k + fst pos, snd e * k + snd pos))
                    (rotated_eyes vel)) (np.arange n).

Definition boundary (tr : Track) (i : nat) : list R :=
  if snd (nth i eyes (0, 0)) >? 0 then upper tr else lower tr.

(** The sample indices at which ray [i] changes side of its boundary. *)
Definition crossings (tr : Track) (pos vel : vec2) (i : nat) : result (list nat) :=
  d <~ np.sub (map (fun row => snd (nth i row (0, 0)))
                   (vision_tensor (length (xs tr)) pos vel))
              (boundary tr i) ;;
  Ok (np.argwhere (np.diff (map np.sign d))).

Definition euclid (p q : vec2) : R :=
  sqrt ((fst p - fst q) * (fst p - fst q) + (snd p - snd q) * (snd p - snd q)).

(** The reading of ray [i]. *)
Definition sensor (tr : Track) (pos vel : vec2) (i : nat) : result R :=
  idx <~ crossings tr pos vel i ;;
  pts <~ mapR (fun j => match nth_error (vision_tensor (length (xs tr)) pos vel) j with
                        | Some row => Ok (nth i row (0, 0))
                        | None => Raise IndexError
                        end) idx ;;
  Ok (match pts with
      | [p] => euclid p pos
      | _ => max_dist
      end).

Definition sensors (tr : Track) (pos vel : vec2) : result (list R) :=
  mapR (sensor tr pos vel) (seq 0 (length eyes)).

(** Sample point [j] of ray [i]: [vision_tensor[j, i]]. *)
Definition sample (pos vel : vec2) (j i : nat) : vec2 :=
  let e := nth i (rotated_eyes vel) (0, 0) in
  (fst e * INR j + fst pos, snd e * INR j + snd pos).

(** What ray [i] reads, given the sample indices at which it changes side. *)
Definition reading (pos vel : vec2) (i : nat) (idx : list nat) : R :=
  match idx with
  | [j] => euclid (sample pos vel j i) pos
  | _ => max_dist
  end.

(** The signed lateral gap between sample [k] of ray [i] and entry [k] of
    the boundary array the ray is compared with. *)
Definition offsets (tr : Track) (pos vel : vec2) (i : nat) : list R :=
  map (fun k => snd (sample pos vel k i) - nth k (boundary tr i) 0)
      (seq 0 (length (xs tr))).

(** A car at rest at [(1, 4)] on the track of the scenarios. *)
Definition car14 : Car :=
  mkCar track3 (1, 4) [0; 0] (0, 0) (0, 0) (0, 0) [(1, 4)] [(0, 0)] [[0; 0]] 20.

(** A straight corridor of [n + 2] samples, one unit apart, whose upper
    boundary lies at [n + 1/2]; and a car at rest in it. *)
Definition far_track (n : nat) : Track :=
  mkTrack (np.arange (n + 2)) (repeat (-1) (n + 2)) (repeat (INR n + / 2) (n + 2)).

Definition far_car (n : nat) : Car :=
  mkCar (far_track n) (1, 0) [0; 0] (0, 0) (0, 0) (0, 0)
        [(1, 0)] [(0, 0)] [[0; 0]] (INR (n + 1)).

(** What [run] hands to the decision function: the readings now, the
    velocity, the readings at the previous position, the previous velocity. *)
Definition observe (c : Car) : result (list R) :=
  dist <~ sensors (track c) (pos c) (vel c) ;;
  last_dist <~ sensors (track c) (last_pos c) (last_vel c) ;;
  Ok (dist ++ [fst (vel c); snd (vel c)] ++ last_dist
           ++ [fst (last_vel c); snd (last_vel c)]).

(** What [run] does with the outcome [r] of the decision function. *)
Definition resume (c : Car) (params : list R) (r : result (list R))
  : result (list R * Car) :=
  match r with
  | Ok a => match update (set_accl a c) with
            | Ok (_, c') => Ok (params, c')
            | Raise e => Raise e
            end
  | Raise e => Raise e
  end.

(** One step with a decision function that is only known as a relation
    between its argument and its outcome, so that it may answer differently
    from call to call. *)
Inductive run_rel (D : list R -> result (list R) -> Prop) (c : Car)
  : result (list R * Car) -> Prop :=
| run_rel_raise e :
    observe c = Raise e -> run_rel D c (Raise e)
| run_rel_decide params r :
    observe c = Ok params -> D params r -> run_rel D c (resume c params r).

(** A corridor between two constant bounds. *)
Definition corridor (tr : Track) (lo hi : R) : Prop :=
  xs tr <> [] /\
  lower tr = repeat lo (length (xs tr)) /\
  upper tr = repeat hi (length (xs tr)).

(** The rollback invariant of a position history. *)
Definition rollback_invariant (tr : Track) (e : R) (h : list vec2) : Prop :=
  forall i, (1 <= i < length h)%nat ->
            Legal tr e (nth i h (0, 0)) \/ nth i h (0, 0) = nth (i - 1) h (0, 0).

(** A car at rest at [(1, 0)] on the track of the scenarios, as [__init__]
    leaves it, and a decision function that always answers [(1, 2)]. *)
Definition car0 : Car :=
  mkCar track3 (1, 0) [0; 0] (0, 0) (0, 0) (0, 0) [(1, 0)] [(0, 0)] [[0; 0]] 20.

Definition decide12 (params : list R) : result (list R) := Ok [1; 2].

(** The first five steps of [car0] under [decide12]: two legal steps, a
    step that leaves the corridor and is rolled back, two more legal steps. *)
Definition trip1 : Car :=
  mkCar track3 (1, 0) [1; 2] (1, 2) (0, 0) (1, 0)
        [(1, 0); (1, 0)] [(0, 0); (1, 2)] [[0; 0]; [1; 2]] 20.
Definition trip2 : Car :=
  mkCar track3 (2, 2) [1; 2] (2, 4) (1, 2) (1, 0)
        [(1, 0); (1, 0); (2, 2)] [(0, 0); (1, 2); (2, 4)]
        [[0; 0]; [1; 2]; [1; 2]] 20.
Definition trip3 : Car :=
  mkCar track3 (2, 2) [0; 0] (0, 0) (2, 4) (2, 2)
        [(1, 0); (1, 0); (2, 2); (2, 2)] [(0, 0); (1, 2); (2, 4); (0, 0)]
        [[0; 0]; [1; 2]; [1; 2]; [0; 0]] 20.
Definition trip4 : Car :=
  mkCar track3 (2, 2) [1; 2] (1, 2) (0, 0) (2, 2)
        [(1, 0); (1, 0); (2, 2); (2, 2); (2, 2)]
        [(0, 0); (1, 2); (2, 4); (0, 0); (1, 2)]
        [[0; 0]; [1; 2]; [1; 2]; [0; 0]; [1; 2]] 20.
Definition trip5 : Car :=
  mkCar track3 (3, 4) [1; 2] (2, 4) (1, 2) (2, 2)
        [(1, 0); (1, 0); (2, 2); (2, 2); (2, 2); (3, 4)]
        [(0, 0); (1, 2); (2, 4); (0, 0); (1, 2); (2, 4)]
        [[0; 0]; [1; 2]; [1; 2]; [0; 0]; [1; 2]; [1; 2]] 20.

(** A decision function that answers with one number instead of two, and
    one that answers now [(0, 0)] and now [(1, 2)]. *)
Definition decide1 (params : list R) : result (list R) := Ok [1].

Definition decide_either (params : list R) (r : result (list R)) : Prop :=
  r = Ok [0; 0] \/ r = Ok [1; 2].

(** A decision function that answers the same to the same argument. *)
Definition deterministic (D : list R -> result (list R) -> Prop) : Prop :=
  forall params r1 r2, D params r1 -> D params r2 -> r1 = r2.

(** A car that has reached [x = 19] on the second step and stayed there. *)
Definition car19 : Car :=
  mkCar track3 (19, 0) [0; 0] (0, 0) (0, 0) (19, 0)
        [(1, 0); (19, 0); (19, 0)] [(0, 0); (0, 0); (0, 0)]
        [[0; 0]; [0; 0]; [0; 0]] 20.

(** A track whose bounds change from sample to sample, and a car on it. *)
Definition track_bent : Track := mkTrack [0; 10; 20] [-5; -3; -4] [5; 6; 7].

Definition car_bent : Car :=
  mkCar track_bent (1, 0) [0; 0] (0, 0) (0, 0) (0, 0)
        [(1, 0)] [(0, 0)] [[0; 0]] 20.

(** The two scenarios of the specification: a decision function that
    always answers [(1, 0)], and a car close to the upper boundary that
    moves towards it. *)
Definition decide10 (params : list R) : result (list R) := Ok [1; 0].

Definition car_near_wall : Car :=
  mkCar track3 (1, 49 / 10) [0; 0] (0, 10) (0, 0) (0, 0)
        [(1, 49 / 10)] [(0, 10)] [[0; 0]] 20.

(** ** The rest of [car.py] *)

(** [Car.get_rot_mat] *)
Definition get_rot_mat (th : R) : mat2 :=
  ((cos th, - sin th), (sin th, cos th)).

(** [Car.default_accl_function]; the literals 0.1 and 0.2 are the
    fractions 1/10 and 2/10.  The unpacking of [params[:4]] into four names
    raises [ValueError] when fewer than four parameters are given; the
    slices [params[4:8]] and [params[8:10]] are taken and never used.
    The quotient [(1 + du) / (1 + dd)] is the code's only where [1 + dd] is
    not zero: at [dd = -1] Python floats raise [ZeroDivisionError] and NumPy
    scalars give an infinity, neither of which a real number renders, so
    statements about this function assume [1 + dd <> 0]. *)
Definition default_accl_function (params : list R) : result (list R) :=
  let distances := firstn 4 params in
  match distances with
  | [du; dd; _; _] =>
      let accl1 := (1 + du) / (1 + dd) - 1 in
      let accl1 :=
        if (nth 0 distances 0 <? 200) || (nth 2 distances 0 <? 200)
        then accl1 - 2 / 10 else accl1 in
      let accl1 :=
        if (nth 1 distances 0 <? 200) || (nth 3 distances 0 <? 200)
        then accl1 + 2 / 10 else accl1 in
      Ok [1 / 10; accl1]
  | _ => Raise ValueError
  end.

(** [l[i]] of a Python list *)
Definition index {A} (l : list A) (i : nat) : result A :=
  match nth_error l i with
  | Some a => Ok a
  | None => Raise IndexError
  end.

(** [read_track], from the rows that [csv.reader] delivers.  The cells of
    a row and Python's [float], which turns a cell into a number or raises,
    are parameters. *)
Section ReadTrack.

Variable cell : Type.
Variable float : cell -> result R.

(** The loop over the rows, with the three lists built so far. *)
Fixpoint read_rows (rows : list (list cell)) (x y1 y2 : list R)
  : result (list R * list R * list R) :=
  match rows with
  | [] => Ok (x, y1, y2)
  | row :: rows' =>
      c0 <~ index row 0 ;; a <~ float c0 ;;
      c1 <~ index row 1 ;; b <~ float c1 ;;
      c2 <~ index row 2 ;; c <~ float c2 ;;
      read_rows rows' (x ++ [a]) (y1 ++ [b]) (y2 ++ [c])
  end.

Definition read_track (rows : list (list cell)) (scale : list R) : result Track :=
  r <~ read_rows rows [] [] [] ;;
  s0 <~ index scale 0 ;;
  s1 <~ index scale 1 ;;
  Ok (mkTrack (map (Rmult s0) (fst (fst r)))
              (map (Rmult s1) (snd (fst r)))
              (map (Rmult s1) (snd r))).

(** A row that [read_track] reads as the three numbers [a], [b], [c]. *)
Definition reads_as (row : list cell) (abc : R * R * R) : Prop :=
  exists c0 c1 c2,
    nth_error row 0 = Some c0 /\ float c0 = Ok (fst (fst abc)) /\
    nth_error row 1 = Some c1 /\ float c1 = Ok (snd (fst abc)) /\
    nth_error row 2 = Some c2 /\ float c2 = Ok (snd abc).

End ReadTrack.

(** The velocity [v] stretched by the factor [k]. *)
Definition stretch (k : R) (v : vec2) : vec2 := (k * fst v, k * snd v).


Definition rows3 : list (list R) := [[0; 0; 1]; [1 / 2; 0; 1]; [1; 0; 1; 7]].

(** A corridor that lies well above zero, the car that [__init__] builds
    on it when it draws the low end of its band, and that car one step
    later. *)
Definition track_high : Track :=
  mkTrack [0; 10; 20] [100; 100; 100] [200; 200; 200].

Definition car_high : Car :=
  mkCar track_high (1, 75) [0; 0] (0, 0) (0, 0) (0, 0)
        [(1, 75)] [(0, 0)] [[0; 0]] 20.

Definition car_high1 : Car :=
  mkCar track_high (1, 75) [0; 0] (0, 0) (0, 0) (1, 75)
        [(1, 75); (1, 75)] [(0, 0); (0, 0)] [[0; 0]; [0; 0]] 20.

(** ** Comparisons *)

Lemma Rltb_true x y : x < y -> (x <? y) = true.
Proof. intros H. unfold Rltb. destruct (Rlt_dec x y); [reflexivity | contradiction]. Qed.

Lemma Rltb_false x y : ~ x < y -> (x <? y) = false.
Proof. intros H. unfold Rltb. destruct (Rlt_dec x y); [contradiction | reflexivity]. Qed.

Lemma Rleb_true x y : x <= y -> (x <=? y) = true.
Proof. intros H. unfold Rleb. destruct (Rle_dec x y); [reflexivity | contradiction]. Qed.

Lemma Rleb_false x y : ~ x <= y -> (x <=? y) = false.
Proof. intros H. unfold Rleb. destruct (Rle_dec x y); [contradiction | reflexivity]. Qed.

Lemma Reqb_true x y : x = y -> (x =? y) = true.
Proof. intros H. unfold Reqb. destruct (Req_dec_T x y); [reflexivity | contradiction]. Qed.

Lemma Reqb_false x y : x <> y -> (x =? y) = false.
Proof. intros H. unfold Reqb. destruct (Req_dec_T x y); [contradiction | reflexivity]. Qed.

Lemma Rltb_iff x y : (x <? y) = true <-> x < y.
Proof. unfold Rltb. destruct (Rlt_dec x y); split; intros; try discriminate; tauto. Qed.

Lemma Rleb_iff x y : (x <=? y) = true <-> x <= y.
Proof. unfold Rleb. destruct (Rle_dec x y); split; intros; try discriminate; tauto. Qed.

Lemma Reqb_iff x y : (x =? y) = true <-> x = y.
Proof. unfold Reqb. destruct (Req_dec_T x y); split; intros; try discriminate; tauto. Qed.

Global Opaque Rltb Rleb Reqb.

(** Decide the comparisons of a goal between concrete numbers. *)
Ltac rcmp :=
  repeat match goal with
    | |- context [Rltb ?a ?b] =>
        first [ rewrite (Rltb_true a b) by lra | rewrite (Rltb_false a b) by lra ]
    | |- context [Rleb ?a ?b] =>
        first [ rewrite (Rleb_true a b) by lra | rewrite (Rleb_false a b) by lra ]
    | |- context [Reqb ?a ?b] =>
        first [ rewrite (Reqb_true a b) by lra | rewrite (Reqb_false a b) by lra ]
    end.

(** ** Interpolation at the sample points *)

Lemma last_nth (l : list R) d : last l d = nth (length l - 1) l d.
Proof.
  induction l as [|a l IH]; [reflexivity|].
  destruct l as [|b l]; [reflexivity|].
  change (last (a :: b :: l) d) with (last (b :: l) d).
  rewrite IH. simpl. now rewrite Nat.sub_0_r.
Qed.

Lemma search_from_spec key arr : forall i m,
  (m <= length arr)%nat ->
  (forall t, (t < m)%nat -> nth t arr 0 <= key) ->
  ((m < length arr)%nat -> key < nth m arr 0) ->
  np.search_from key i arr = (i + m)%nat.
Proof.
  induction arr as [|a arr IH]; intros i m Hm Hle Hgt; simpl in *.
  - lia.
  - destruct m as [|m].
    + rewrite Rleb_false; [lia|]. specialize (Hgt ltac:(lia)). lra.
    + rewrite Rleb_true by (apply (Hle 0%nat); lia).
      rewrite (IH (S i) m); [lia | lia | |].
      * intros t Ht. apply (Hle (S t)). lia.
      * intros H. apply Hgt. lia.
Qed.

Lemma increasing_le l i j :
  increasing l -> (i <= j < length l)%nat -> nth i l 0 <= nth j l 0.
Proof.
  intros Hinc H. destruct (Nat.eq_dec i j) as [->|Hne]; [lra|].
  left. apply Hinc. lia.
Qed.

Lemma binary_search_sample xp k :
  increasing xp -> (k < length xp)%nat ->
  np.binary_search (nth k xp 0) xp = k.
Proof.
  intros Hinc Hk. unfold np.binary_search.
  destruct xp as [|x0 xp]; [simpl in Hk; lia|]. simpl tl.
  rewrite (search_from_spec _ _ 1%nat k).
  - lia.
  - simpl in Hk. lia.
  - intros t Ht. apply (increasing_le (x0 :: xp) (S t) k Hinc). lia.
  - intros H. apply (Hinc k (S k)). simpl. lia.
Qed.

Lemma interp_sample xp fp k :
  increasing xp -> length fp = length xp -> (k < length xp)%nat ->
  np.interp (nth k xp 0) xp fp = Ok (nth k fp 0).
Proof.
  intros Hinc Hlen Hk.
  destruct xp as [|x0 xp'] eqn:E; [simpl in Hk; lia|].
  unfold np.interp. rewrite <- E in *.
  rewrite Hlen, Nat.eqb_refl. cbn [negb].
  rewrite Rltb_false.
  2:{ rewrite last_nth. apply Rle_not_lt. apply increasing_le; [assumption|lia]. }
  rewrite Rltb_false.
  2:{ apply Rle_not_lt. replace x0 with (nth 0 xp 0) by (rewrite E; reflexivity).
      apply increasing_le; [assumption|lia]. }
  cbv zeta. rewrite binary_search_sample by assumption.
  destruct (k =? length xp - 1)%nat; [reflexivity|].
  now rewrite Reqb_true.
Qed.

(** ** Methods that only read *)

Lemma read_only_ret {A} (a : A) : read_only (ret a).
Proof. intros c a' c' H. inversion H. reflexivity. Qed.

Lemma read_only_gets {A} (f : Car -> A) : read_only (gets f).
Proof. intros c a' c' H. inversion H. reflexivity. Qed.

Lemma read_only_lift {A} (r : result A) : read_only (lift r).
Proof. intros c a' c' H. unfold lift in H. destruct r; inversion H. reflexivity. Qed.

Lemma read_only_bind {A B} (m : M A) (k : A -> M B) :
  read_only m -> (forall a, read_only (k a)) -> read_only (bind m k).
Proof.
  intros Hm Hk c b c' H. unfold bind in H.
  destruct (m c) as [[a c1]|e] eqn:E; [|discriminate].
  apply Hm in E. subst c1. eapply Hk. eassumption.
Qed.

Lemma read_only_mapM {A B} (f : A -> M B) l :
  (forall a, read_only (f a)) -> read_only (mapM f l).
Proof.
  intros Hf. induction l as [|a l IH]; simpl.
  - apply read_only_ret.
  - apply read_only_bind; [apply Hf|]. intros b.
    apply read_only_bind; [apply IH|]. intros bs. apply read_only_ret.
Qed.

Lemma read_only_track_at x : read_only (track_at x).
Proof.
  unfold track_at.
  repeat (first [ apply read_only_ret | apply read_only_gets | apply read_only_lift
                | apply read_only_bind; [|intros ?] ]).
Qed.

Lemma read_only_is_legal : read_only is_legal.
Proof.
  unfold is_legal.
  repeat (first [ apply read_only_ret | apply read_only_gets | apply read_only_track_at
                | apply read_only_bind; [|intros ?] ]).
Qed.

Lemma track_at_eq x c :
  track_at x c =
  lift (lo <~ np.interp x (xs (track c)) (lower (track c)) ;;
        hi <~ np.interp x (xs (track c)) (upper (track c)) ;;
        Ok (lo, hi)) c.
Proof.
  unfold track_at, bind, gets, lift, ret, bindR.
  destruct (np.interp x _ (lower _)); [|reflexivity].
  destruct (np.interp x _ (upper _)); reflexivity.
Qed.

Lemma is_legal_eq c :
  is_legal c = lift (legal_at (track c) (end_ c) (pos c)) c.
Proof.
  unfold is_legal, bind, gets. rewrite track_at_eq.
  unfold legal_at, lift, ret, bindR.
  destruct (np.interp _ _ (lower _)); [|reflexivity].
  destruct (np.interp _ _ (upper _)); reflexivity.
Qed.

Lemma legal_at_true tr e p : legal_at tr e p = Ok true <-> Legal tr e p.
Proof.
  unfold legal_at, Legal, bindR. split.
  - destruct (np.interp _ _ (lower tr)) as [lo|]; [|discriminate].
    destruct (np.interp _ _ (upper tr)) as [hi|]; [|discriminate].
    intros H. injection H as H.
    apply andb_true_iff in H. destruct H as [H1 H2].
    apply andb_true_iff in H1. destruct H1 as [H1 H1'].
    apply andb_true_iff in H2. destruct H2 as [H2 H2'].
    apply Rltb_iff in H1, H1', H2, H2'.
    exists lo, hi. repeat split; assumption.
  - intros (lo & hi & -> & -> & [H1 H1'] & [H2 H2']).
    now rewrite !Rltb_true by assumption.
Qed.

(** C8.  Built from three sequences of one length with strictly increasing
    sample positions, the boundary lookup [track_at], asked at the sample
    position [xs[k]], returns exactly the pair of the k-th lower and the k-th
    upper value, and leaves the car as it was. *)
Theorem track_at_sample (c : Car) (k : nat) :
  increasing (xs (track c)) ->
  aligned (track c) ->
  (k < length (xs (track c)))%nat ->
  track_at (nth k (xs (track c)) 0) c
  = Ok ((nth k (lower (track c)) 0, nth k (upper (track c)) 0), c).
Proof.
  intros Hinc [Hlo Hup] Hk. rewrite track_at_eq.
  rewrite !interp_sample by assumption. reflexivity.
Qed.

Lemma increasing_bent : increasing (xs track_bent).
Proof.
  intros i j H. unfold track_bent in *. cbn [xs length] in *.
  destruct i as [|[|[|i]]]; destruct j as [|[|[|j]]]; cbn [nth]; try lia; lra.
Qed.

Lemma track_at_sample_witness :
  track_at (nth 1 (xs (track car_bent)) 0) car_bent
  = Ok ((nth 1 (lower (track car_bent)) 0, nth 1 (upper (track car_bent)) 0),
        car_bent).
Proof.
  apply (track_at_sample car_bent 1).
  - exact increasing_bent.
  - split; reflexivity.
  - cbn. lia.
Defined.

(** ** Closed forms of the methods *)

Lemma mapM_lift {A B} (f : A -> M B) (g : A -> result B) l c :
  (forall a c', f a c' = lift (g a) c') ->
  mapM f l c = lift (mapR g l) c.
Proof.
  intros H. induction l as [|a l IH]; [reflexivity|].
  simpl. unfold bind at 1. rewrite H. unfold lift at 1, bindR at 1.
  destruct (g a) as [b|e]; [|reflexivity].
  unfold bind at 1. rewrite IH. unfold lift, bindR.
  destruct (mapR g l); reflexivity.
Qed.

Lemma get_surrounding_eq p v c :
  get_surrounding p v c = lift (sensors (track c) p v) c.
Proof.
  unfold get_surrounding, bind at 1, gets.
  apply mapM_lift. intros i c'.
  unfold sensor, crossings, bind, lift, bindR, ret, boundary, vision_tensor,
    rotated_eyes, rot_matrix, euclid.
  destruct (np.sub _ _) as [d|e]; [|reflexivity].
  destruct (mapR _ _) as [pts|e]; [|reflexivity].
  destruct pts as [|q [|q' pts]]; reflexivity.
Qed.

Lemma read_only_get_surrounding p v : read_only (get_surrounding p v).
Proof.
  intros c a c' H. rewrite get_surrounding_eq in H.
  eapply read_only_lift. eassumption.
Qed.

Lemma clamp_eq c : clamp c = Ok (tt, set_vel (clamp_vel (vel c)) c).
Proof.
  destruct c as [tr p a [v0 v1] lv lp ph vh ah e].
  unfold clamp, clamp_vel, bind, gets, when, modify, ret, set_vel, max_vel.
  simpl.
  repeat (match goal with
          | |- context [Rltb ?a ?b] => destruct (Rltb a b)
          end; simpl);
    reflexivity.
Qed.

Lemma bind_ok {A B} (m : M A) (k : A -> M B) c a c1 :
  m c = Ok (a, c1) -> bind m k c = k a c1.
Proof. intros H. unfold bind. now rewrite H. Qed.

Lemma bind_raise {A B} (m : M A) (k : A -> M B) c e :
  m c = Raise e -> bind m k c = Raise e.
Proof. intros H. unfold bind. now rewrite H. Qed.

Lemma update_eq c :
  update c =
  match legal_at (track c) (end_ c) (pos (tentative c)) with
  | Ok true =>
      match np.iadd2 (vel (tentative c)) (accl c) with
      | Ok v' => Ok (tt, append_history (set_vel v' (tentative c)))
      | Raise e => Raise e
      end
  | Ok false =>
      Ok (tt, append_history
                (set_accl [0; 0] (set_vel np.zeros2 (set_pos (pos c) (tentative c)))))
  | Raise e => Raise e
  end.
Proof.
  unfold update.
  erewrite bind_ok by reflexivity.
  erewrite bind_ok by apply clamp_eq.
  erewrite bind_ok by reflexivity.
  fold (tentative c).
  unfold bind at 1, settle. unfold bind at 1. rewrite is_legal_eq.
  change (track (tentative c)) with (track c).
  change (end_ (tentative c)) with (end_ c).
  unfold lift at 1.
  destruct (legal_at _ _ _) as [[|]|e]; [| |reflexivity].
  - unfold bind, gets, lift, modify, log_history.
    change (accl (tentative c)) with (accl c).
    destruct (np.iadd2 _ _); reflexivity.
  - reflexivity.
Qed.

(** ** The sensor model *)

Lemma mapR_ok {A B} (f : A -> result B) (g : A -> B) l :
  (forall a, In a l -> f a = Ok (g a)) -> mapR f l = Ok (map g l).
Proof.
  induction l as [|a l IH]; intros H; [reflexivity|].
  simpl. rewrite (H a) by (left; reflexivity). simpl.
  rewrite IH by (intros; apply H; right; assumption). reflexivity.
Qed.

Lemma sub_aligned a b :
  length a = length b ->
  np.sub a b = Ok (map (fun p => fst p - snd p) (combine a b)).
Proof. intros H. unfold np.sub. now rewrite H, Nat.eqb_refl. Qed.

Lemma length_diff a : length (np.diff a) = (length a - 1)%nat.
Proof.
  induction a as [|x a IH]; [reflexivity|].
  destruct a as [|y a]; [reflexivity|].
  change (np.diff (x :: y :: a)) with ((y - x) :: np.diff (y :: a)).
  simpl length in *. rewrite IH. lia.
Qed.

Lemma argwhere_from_bound a : forall i j,
  In j (np.argwhere_from i a) -> (i <= j < i + length a)%nat.
Proof.
  induction a as [|x a IH]; intros i j H; simpl in *; [contradiction|].
  destruct (x =? 0).
  - apply IH in H. lia.
  - destruct H as [<-|H]; [lia|]. apply IH in H. lia.
Qed.

Lemma length_vision_tensor n p v : length (vision_tensor n p v) = n.
Proof. unfold vision_tensor, np.arange. now rewrite !length_map, length_seq. Qed.

Lemma length_rotated_eyes v : length (rotated_eyes v) = length eyes.
Proof. unfold rotated_eyes, np.dot. now rewrite length_map. Qed.

Lemma nth_error_vision_tensor n p v j :
  (j < n)%nat ->
  nth_error (vision_tensor n p v) j
  = Some (map (fun e => (fst e * INR j + fst p, snd e * INR j + snd p))
              (rotated_eyes v)).
Proof.
  intros H. unfold vision_tensor, np.arange.
  rewrite !nth_error_map, nth_error_seq.
  destruct (Nat.ltb_spec j n); [reflexivity | lia].
Qed.

Lemma nth_row_sample p v j i :
  (i < length eyes)%nat ->
  nth i (map (fun e => (fst e * INR j + fst p, snd e * INR j + snd p))
             (rotated_eyes v)) (0, 0)
  = sample p v j i.
Proof.
  intros H. unfold sample.
  set (f := fun e : vec2 => (fst e * INR j + fst p, snd e * INR j + snd p)).
  rewrite (nth_indep _ (0, 0) (f (0, 0)))
    by (now rewrite length_map, length_rotated_eyes).
  rewrite map_nth. reflexivity.
Qed.

Lemma length_boundary tr i : aligned tr -> length (boundary tr i) = length (xs tr).
Proof. intros [H1 H2]. unfold boundary. destruct (_ <? _); assumption. Qed.

Lemma crossings_ok tr p v i :
  aligned tr ->
  exists idx, crossings tr p v i = Ok idx /\
              forall j, In j idx -> (S j < length (xs tr))%nat.
Proof.
  intros Hal. unfold crossings.
  rewrite sub_aligned
    by (now rewrite length_map, length_vision_tensor, length_boundary).
  simpl. eexists. split; [reflexivity|].
  intros j Hj. apply argwhere_from_bound in Hj.
  rewrite length_diff, length_map, length_map, length_combine, length_map,
    length_vision_tensor, length_boundary in Hj by assumption.
  rewrite Nat.min_id in Hj. lia.
Qed.

Lemma sensor_reading tr p v i idx :
  (i < length eyes)%nat ->
  crossings tr p v i = Ok idx ->
  (forall j, In j idx -> (j < length (xs tr))%nat) ->
  sensor tr p v i = Ok (reading p v i idx).
Proof.
  intros Hi Hc Hidx. unfold sensor. rewrite Hc. simpl.
  rewrite (mapR_ok _ (fun j => sample p v j i)).
  - simpl. unfold reading. destruct idx as [|j [|j' idx]]; reflexivity.
  - intros j Hj. rewrite nth_error_vision_tensor by (apply Hidx; assumption).
    now rewrite nth_row_sample.
Qed.

Lemma sensor_ok tr p v i :
  aligned tr -> (i < length eyes)%nat ->
  exists idx, crossings tr p v i = Ok idx /\
              (forall j, In j idx -> (S j < length (xs tr))%nat) /\
              sensor tr p v i = Ok (reading p v i idx).
Proof.
  intros Hal Hi. destruct (crossings_ok tr p v i Hal) as (idx & Hc & Hb).
  exists idx. repeat split; try assumption.
  apply sensor_reading; try assumption.
  intros j Hj. apply Hb in Hj. lia.
Qed.

Lemma mapR_total {A B} (f : A -> result B) l :
  (forall a, In a l -> exists b, f a = Ok b) ->
  exists bs, mapR f l = Ok bs /\ length bs = length l /\
             forall k da db, (k < length l)%nat -> f (nth k l da) = Ok (nth k bs db).
Proof.
  induction l as [|a l IH]; intros H.
  - exists []. repeat split. intros k ? ? Hk. simpl in Hk. lia.
  - destruct (H a) as [b Hb]; [left; reflexivity|].
    destruct IH as (bs & Hbs & Hlen & Hnth); [intros; apply H; right; assumption|].
    exists (b :: bs). simpl. rewrite Hb. simpl. rewrite Hbs. simpl.
    repeat split; [now rewrite Hlen|].
    intros [|k] da db Hk; [assumption|]. apply Hnth. lia.
Qed.

Lemma sensors_ok tr p v :
  aligned tr ->
  exists ds, sensors tr p v = Ok ds /\ length ds = length eyes /\
             forall i, (i < length eyes)%nat -> sensor tr p v i = Ok (nth i ds 0).
Proof.
  intros Hal. unfold sensors.
  destruct (mapR_total (sensor tr p v) (seq 0 (length eyes))) as (ds & H & Hlen & Hnth).
  - intros i Hi. apply in_seq in Hi.
    destruct (sensor_ok tr p v i Hal) as (idx & _ & _ & Hs); [lia|]. eauto.
  - exists ds. rewrite length_seq in *. repeat split; try assumption.
    intros i Hi. rewrite <- (Hnth i 0%nat 0) by assumption.
    now rewrite seq_nth.
Qed.

Lemma get_surrounding_ok p v c :
  aligned (track c) ->
  exists ds, get_surrounding p v c = Ok (ds, c) /\ sensors (track c) p v = Ok ds.
Proof.
  intros Hal. destruct (sensors_ok (track c) p v Hal) as (ds & H & _).
  exists ds. rewrite get_surrounding_eq, H. split; reflexivity.
Qed.

Lemma nth_column n p v i k :
  (i < length eyes)%nat -> (k < n)%nat ->
  nth k (map (fun row => snd (nth i row (0, 0))) (vision_tensor n p v)) 0
  = snd (sample p v k i).
Proof.
  intros Hi Hk.
  set (f := fun row : list vec2 => snd (nth i row (0, 0))).
  rewrite (nth_indep _ 0 (f [])) by (now rewrite length_map, length_vision_tensor).
  rewrite map_nth. unfold f.
  pose proof (nth_error_vision_tensor n p v k Hk) as H.
  apply nth_error_nth with (d := []) in H. rewrite H.
  now rewrite nth_row_sample.
Qed.

Lemma crossings_eq tr p v i :
  aligned tr -> (i < length eyes)%nat ->
  crossings tr p v i
  = Ok (np.argwhere (np.diff (map np.sign (offsets tr p v i)))).
Proof.
  intros Hal Hi. unfold crossings.
  rewrite sub_aligned
    by (now rewrite length_map, length_vision_tensor, length_boundary).
  simpl. do 4 f_equal. unfold offsets.
  apply (nth_ext _ _ 0 0).
  - rewrite !length_map, length_combine, length_map, length_vision_tensor,
      length_boundary, length_seq by assumption.
    apply Nat.min_id.
  - intros k Hk.
    rewrite !length_map, length_combine, length_map, length_vision_tensor,
      length_boundary, Nat.min_id in Hk by assumption.
    set (f := fun q : R * R => fst q - snd q).
    rewrite (nth_indep _ 0 (f (0, 0))).
    2:{ now rewrite !length_map, length_combine, length_map, length_vision_tensor,
          length_boundary, Nat.min_id. }
    rewrite map_nth, combine_nth
      by (now rewrite length_map, length_vision_tensor, length_boundary).
    unfold f. cbn [fst snd]. rewrite nth_column by assumption.
    set (g := fun k0 : nat => snd (sample p v k0 i) - nth k0 (boundary tr i) 0).
    rewrite (nth_indep (map g _) 0 (g 0%nat)) by (now rewrite length_map, length_seq).
    rewrite map_nth, seq_nth by assumption. reflexivity.
Qed.

(** The rotation keeps the length of every ray direction. *)

Lemma norm_zero : np.norm (0, 0) = 0.
Proof.
  unfold np.norm. cbn [fst snd].
  replace (0 * 0 + 0 * 0) with 0 by ring. apply sqrt_0.
Qed.

Lemma sumsq_nonneg a b : 0 <= a * a + b * b.
Proof. nra. Qed.

Lemma normalize_unit v :
  np.norm v <> 0 ->
  fst (normalize v) * fst (normalize v) + snd (normalize v) * snd (normalize v) = 1.
Proof.
  intros Hn. unfold normalize. rewrite Reqb_false by assumption. cbn [fst snd].
  assert (Hsq : np.norm v * np.norm v = fst v * fst v + snd v * snd v)
    by (apply sqrt_sqrt, sumsq_nonneg).
  field_simplify_eq; [|assumption]. nra.
Qed.

Lemma rot_matrix_unit v :
  let m := rot_matrix v in
  fst (fst m) = snd (snd m) /\ fst (snd m) = - snd (fst m) /\
  fst (fst m) * fst (fst m) + fst (snd m) * fst (snd m) = 1.
Proof.
  unfold rot_matrix.
  destruct (Req_dec_T (np.norm v) 0) as [Hz|Hnz].
  - rewrite Reqb_true by assumption. cbn. repeat split; ring.
  - rewrite Reqb_false by assumption. cbn.
    pose proof (normalize_unit v Hnz). repeat split; try assumption. ring.
Qed.

Lemma rotated_eye_norm v i :
  let r := nth i (rotated_eyes v) (0, 0) in
  let e := nth i eyes (0, 0) in
  fst r * fst r + snd r * snd r = fst e * fst e + snd e * snd e.
Proof.
  destruct (rot_matrix_unit v) as (H1 & H2 & H3).
  unfold rotated_eyes, np.dot.
  set (m := rot_matrix v) in *.
  destruct m as [[a b] [c d]]. cbn [fst snd np.T] in *.
  subst d c.
  destruct i as [|[|[|[|i]]]]; cbn; nra.
Qed.

Lemma euclid_sample p v j i :
  euclid (sample p v j i) p = INR j * np.norm (nth i eyes (0, 0)).
Proof.
  unfold euclid, sample, np.norm. cbn [fst snd].
  pose proof (rotated_eye_norm v i) as H. cbv zeta in H.
  set (r := nth i (rotated_eyes v) (0, 0)) in *.
  rewrite <- H.
  replace ((fst r * INR j + fst p - fst p) * (fst r * INR j + fst p - fst p)
           + (snd r * INR j + snd p - snd p) * (snd r * INR j + snd p - snd p))
    with ((INR j * INR j) * (fst r * fst r + snd r * snd r)) by ring.
  rewrite sqrt_mult by (try apply sumsq_nonneg; apply Rmult_le_pos; apply pos_INR).
  rewrite sqrt_square by apply pos_INR. reflexivity.
Qed.

Lemma eye_norm_bound i : 0 <= np.norm (nth i eyes (0, 0)) <= sqrt 2.
Proof.
  split; [apply sqrt_pos|].
  unfold np.norm. apply sqrt_le_1; [apply sumsq_nonneg | lra |].
  destruct i as [|[|[|[|i]]]]; cbn; try lra.
  destruct i; cbn; lra.
Qed.

Lemma reading_bounds p v i idx n :
  (forall j, In j idx -> (S j < n)%nat) ->
  0 <= reading p v i idx /\
  (reading p v i idx = max_dist \/ reading p v i idx <= sqrt 2 * INR (n - 2)).
Proof.
  intros Hb. unfold reading.
  destruct idx as [|j [|j' idx]]; try (split; [unfold max_dist; lra | left; reflexivity]).
  rewrite euclid_sample.
  pose proof (eye_norm_bound i) as [H0 H1].
  pose proof (pos_INR j) as Hj.
  assert (Hjn : INR j <= INR (n - 2)).
  { apply le_INR. specialize (Hb j (or_introl eq_refl)). lia. }
  split; [apply Rmult_le_pos; assumption|].
  right. rewrite (Rmult_comm (sqrt 2)).
  apply Rmult_le_compat; assumption.
Qed.

(** Where a ray changes side. *)

Lemma sign_neg x : x < 0 -> np.sign x = -1.
Proof. intros H. unfold np.sign. now rewrite Rltb_true. Qed.

Lemma sign_pos x : 0 < x -> np.sign x = 1.
Proof.
  intros H. unfold np.sign.
  rewrite Rltb_false by lra. rewrite Reqb_false by lra. reflexivity.
Qed.

Lemma sign_zero : np.sign 0 = 0.
Proof.
  unfold np.sign. rewrite Rltb_false by lra. now rewrite Reqb_true.
Qed.

Lemma no_crossing_pos d : forall i,
  (forall k, (k < length d)%nat -> 0 < nth k d 0) ->
  np.argwhere_from i (np.diff (map np.sign d)) = [].
Proof.
  induction d as [|x d IH]; intros i H; [reflexivity|].
  destruct d as [|y d]; [reflexivity|].
  change (map np.sign (x :: y :: d)) with (np.sign x :: np.sign y :: map np.sign d).
  change (np.diff (np.sign x :: np.sign y :: map np.sign d))
    with ((np.sign y - np.sign x) :: np.diff (map np.sign (y :: d))).
  cbn [np.argwhere_from].
  rewrite (sign_pos x) by (apply (H 0%nat); simpl; lia).
  rewrite (sign_pos y) by (apply (H 1%nat); simpl; lia).
  rewrite Reqb_true by lra.
  apply IH. intros k Hk. apply (H (S k)). simpl in *. lia.
Qed.

Lemma crossing_single_from d : forall i j,
  (S j < length d)%nat ->
  (forall k, (k <= j)%nat -> nth k d 0 < 0) ->
  (forall k, (j < k < length d)%nat -> 0 < nth k d 0) ->
  np.argwhere_from i (np.diff (map np.sign d)) = [(i + j)%nat].
Proof.
  induction d as [|x d IH]; intros i j Hlen Hneg Hpos; [simpl in Hlen; lia|].
  destruct d as [|y d]; [simpl in Hlen; lia|].
  change (map np.sign (x :: y :: d)) with (np.sign x :: np.sign y :: map np.sign d).
  change (np.diff (np.sign x :: np.sign y :: map np.sign d))
    with ((np.sign y - np.sign x) :: np.diff (map np.sign (y :: d))).
  cbn [np.argwhere_from].
  rewrite (sign_neg x) by (apply (Hneg 0%nat); lia).
  destruct j as [|j].
  - rewrite (sign_pos y) by (apply (Hpos 1%nat); simpl; lia).
    rewrite Reqb_false by lra.
    rewrite no_crossing_pos.
    + now rewrite Nat.add_0_r.
    + intros k Hk. apply (Hpos (S k)). simpl in *. lia.
  - rewrite (sign_neg y) by (apply (Hneg 1%nat); lia).
    rewrite Reqb_true by lra.
    rewrite (IH (S i) j).
    + f_equal. lia.
    + simpl in *. lia.
    + intros k Hk. apply (Hneg (S k)). lia.
    + intros k Hk. apply (Hpos (S k)). simpl in *. lia.
Qed.

Lemma crossing_single d j :
  (S j < length d)%nat ->
  (forall k, (k <= j)%nat -> nth k d 0 < 0) ->
  (forall k, (j < k < length d)%nat -> 0 < nth k d 0) ->
  np.argwhere (np.diff (map np.sign d)) = [j].
Proof. intros. unfold np.argwhere. now rewrite (crossing_single_from d 0 j). Qed.

Lemma length_offsets tr p v i : length (offsets tr p v i) = length (xs tr).
Proof. unfold offsets. now rewrite length_map, length_seq. Qed.

Lemma nth_offsets tr p v i k :
  (k < length (xs tr))%nat ->
  nth k (offsets tr p v i) 0 = snd (sample p v k i) - nth k (boundary tr i) 0.
Proof.
  intros Hk. unfold offsets.
  set (g := fun k0 : nat => snd (sample p v k0 i) - nth k0 (boundary tr i) 0).
  rewrite (nth_indep (map g _) 0 (g 0%nat)) by (now rewrite length_map, length_seq).
  rewrite map_nth, seq_nth by assumption. reflexivity.
Qed.

Lemma rot_matrix_zero : rot_matrix (0, 0) = np.eye2.
Proof. unfold rot_matrix. rewrite norm_zero. now rewrite Reqb_true. Qed.

Lemma sample_at_rest p j i :
  (i < length eyes)%nat ->
  sample p (0, 0) j i
  = (fst (nth i eyes (0, 0)) * INR j + fst p, snd (nth i eyes (0, 0)) * INR j + snd p).
Proof.
  intros Hi. unfold sample, rotated_eyes. rewrite rot_matrix_zero.
  destruct i as [|[|[|[|i]]]]; cbn in *; try lia; f_equal; ring.
Qed.

Lemma sqrt2_bound : sqrt 2 * 707 <= 1000.
Proof.
  assert (H : sqrt 2 <= 1000 / 707).
  { rewrite <- (sqrt_square (1000 / 707)) by lra.
    apply sqrt_le_1; lra. }
  lra.
Qed.

Lemma nth_repeat_lt (c : R) n k : (k < n)%nat -> nth k (repeat c n) 0 = c.
Proof.
  revert k. induction n as [|n IH]; intros k Hk; [lia|].
  destruct k as [|k]; [reflexivity|]. simpl. apply IH. lia.
Qed.

Lemma aligned_far_track n : aligned (far_track n).
Proof.
  unfold aligned, far_track, np.arange. cbn [xs lower upper].
  now rewrite !repeat_length, length_map, length_seq.
Qed.

Lemma far_track_crossing n :
  crossings (far_track n) (1, 0) (0, 0) 0 = Ok [n].
Proof.
  rewrite crossings_eq by (try apply aligned_far_track; simpl; lia).
  f_equal. apply crossing_single.
  - rewrite length_offsets. unfold far_track, np.arange. cbn [xs].
    rewrite length_map, length_seq. lia.
  - intros k Hk.
    assert (Hlen : length (xs (far_track n)) = (n + 2)%nat)
      by (unfold far_track, np.arange; cbn [xs]; now rewrite length_map, length_seq).
    rewrite nth_offsets by lia.
    rewrite sample_at_rest by (simpl; lia).
    unfold boundary. cbn [nth eyes fst snd]. rewrite Rltb_true by lra.
    unfold far_track. cbn [upper]. rewrite nth_repeat_lt by lia.
    apply le_INR in Hk. lra.
  - intros k Hk. rewrite length_offsets in Hk.
    assert (Hlen : length (xs (far_track n)) = (n + 2)%nat)
      by (unfold far_track, np.arange; cbn [xs]; now rewrite length_map, length_seq).
    rewrite nth_offsets by lia.
    rewrite sample_at_rest by (simpl; lia).
    unfold boundary. cbn [nth eyes fst snd]. rewrite Rltb_true by lra.
    unfold far_track. cbn [upper]. rewrite nth_repeat_lt by lia.
    assert (H1 : INR (S n) <= INR k) by (apply le_INR; lia).
    rewrite S_INR in H1. lra.
Qed.

Lemma far_track_reading n :
  sensor (far_track n) (1, 0) (0, 0) 0 = Ok (INR n).
Proof.
  rewrite (sensor_reading _ _ _ _ [n]).
  - unfold reading. rewrite euclid_sample. f_equal.
    unfold np.norm. cbn [nth eyes fst snd].
    replace (0 * 0 + 1 * 1) with 1 by ring. rewrite sqrt_1. ring.
  - simpl. lia.
  - apply far_track_crossing.
  - intros j [<-|[]]. unfold far_track, np.arange. cbn [xs].
    rewrite length_map, length_seq. lia.
Qed.

(** ** The claims about the sensor model *)

(** What a ray reads, by the number of its sign changes. *)

Lemma sensor_no_crossing tr p v i :
  (i < length eyes)%nat ->
  crossings tr p v i = Ok [] -> sensor tr p v i = Ok max_dist.
Proof.
  intros Hi Hc. rewrite (sensor_reading tr p v i []); try assumption.
  - reflexivity.
  - intros j [].
Qed.

Lemma sensor_single_crossing tr p v i j :
  aligned tr -> (i < length eyes)%nat ->
  crossings tr p v i = Ok [j] ->
  sensor tr p v i = Ok (euclid (sample p v j i) p).
Proof.
  intros Hal Hi Hc.
  destruct (sensor_ok tr p v i Hal Hi) as (idx & Hc' & _ & Hs).
  rewrite Hc in Hc'. injection Hc' as <-. exact Hs.
Qed.

Lemma sensor_many_crossings tr p v i j j' idx :
  aligned tr -> (i < length eyes)%nat ->
  crossings tr p v i = Ok (j :: j' :: idx) ->
  sensor tr p v i = Ok max_dist.
Proof.
  intros Hal Hi Hc.
  destruct (sensor_ok tr p v i Hal Hi) as (idx' & Hc' & _ & Hs).
  rewrite Hc in Hc'. injection Hc' as <-. exact Hs.
Qed.

(** The readings of the car at rest at [(1, 4)] on the track of the
    scenarios: the two upward rays meet the upper boundary exactly at their
    second sample and change sign twice, the two downward rays never reach
    the lower boundary. *)
Ltac eval_crossings :=
  rewrite crossings_eq by (try (split; reflexivity); simpl; lia);
  unfold offsets; cbn [xs track3 length seq map];
  rewrite !sample_at_rest by (simpl; lia);
  unfold boundary; cbn [nth eyes fst snd]; rcmp;
  cbn [upper lower track3 nth INR];
  unfold np.sign; rcmp; cbv iota;
  unfold np.argwhere; cbn [np.diff np.argwhere_from]; rcmp; cbv iota.

Lemma car14_crossings0 : crossings track3 (1, 4) (0, 0) 0 = Ok [0%nat; 1%nat].
Proof. eval_crossings. reflexivity. Qed.

Lemma car14_crossings1 : crossings track3 (1, 4) (0, 0) 1 = Ok [].
Proof. eval_crossings. reflexivity. Qed.

Lemma car14_crossings2 : crossings track3 (1, 4) (0, 0) 2 = Ok [0%nat; 1%nat].
Proof. eval_crossings. reflexivity. Qed.

Lemma car14_crossings3 : crossings track3 (1, 4) (0, 0) 3 = Ok [].
Proof. eval_crossings. reflexivity. Qed.

Lemma car14_readings :
  get_surrounding (1, 4) (0, 0) car14
  = Ok ([max_dist; max_dist; max_dist; max_dist], car14).
Proof.
  assert (Hal : aligned track3) by (split; reflexivity).
  rewrite get_surrounding_eq. change (track car14) with track3.
  unfold sensors. cbn [eyes length seq mapR].
  rewrite (sensor_many_crossings _ _ _ 0 _ _ _ Hal ltac:(simpl; lia) car14_crossings0).
  rewrite (sensor_no_crossing _ _ _ 1 ltac:(simpl; lia) car14_crossings1).
  rewrite (sensor_many_crossings _ _ _ 2 _ _ _ Hal ltac:(simpl; lia) car14_crossings2).
  rewrite (sensor_no_crossing _ _ _ 3 ltac:(simpl; lia) car14_crossings3).
  reflexivity.
Qed.

(** C2, at a failing input.  On the track of the scenarios, seen from
    [(1, 4)] at rest, the first ray meets its boundary exactly at its second
    sample, so the sign of the lateral gap changes twice, at the sample
    indices 0 and 1.  The sample points at these indices are at the
    distances 0 and 1 from the position, yet [get_surrounding] reads the
    sentinel [max_dist] on that ray. *)
Theorem sensor_two_crossings_reads_sentinel :
  crossings track3 (1, 4) (0, 0) 0 = Ok [0%nat; 1%nat] /\
  euclid (sample (1, 4) (0, 0) 0 0) (1, 4) = 0 /\
  euclid (sample (1, 4) (0, 0) 1 0) (1, 4) = 1 /\
  get_surrounding (1, 4) (0, 0) car14
  = Ok ([max_dist; max_dist; max_dist; max_dist], car14).
Proof.
  assert (Hn : np.norm (nth 0 eyes (0, 0)) = 1).
  { unfold np.norm. cbn [nth eyes fst snd].
    replace (0 * 0 + 1 * 1) with 1 by ring. apply sqrt_1. }
  split; [exact car14_crossings0|]. split; [|split].
  - rewrite euclid_sample, Hn. cbn [INR]. ring.
  - rewrite euclid_sample, Hn. cbn [INR]. ring.
  - exact car14_readings.
Qed.

(** C3, as the code has it.  On an aligned track every reading of
    [get_surrounding] is at least zero; a reading is the sentinel [max_dist]
    or at most [sqrt 2] times the number of samples less two, so no reading
    exceeds [max_dist] on a track of at most 709 samples. *)
Theorem sensor_distance_bounds (c : Car) (p v : vec2) :
  aligned (track c) ->
  exists ds,
    get_surrounding p v c = Ok (ds, c) /\
    length ds = length eyes /\
    forall d, In d ds ->
      0 <= d /\
      (d = max_dist \/ d <= sqrt 2 * INR (length (xs (track c)) - 2)) /\
      ((length (xs (track c)) <= 709)%nat -> d <= max_dist).
Proof.
  intros Hal.
  destruct (sensors_ok (track c) p v Hal) as (ds & Hs & Hlen & Hnth).
  exists ds. rewrite get_surrounding_eq, Hs. repeat split; try assumption.
  - apply (In_nth _ _ 0) in H. destruct H as (i & Hi & <-).
    rewrite Hlen in Hi. specialize (Hnth i Hi).
    destruct (sensor_ok (track c) p v i Hal Hi) as (idx & _ & Hb & Hr).
    rewrite Hr in Hnth. injection Hnth as <-.
    apply (reading_bounds p v i idx _ Hb).
  - apply (In_nth _ _ 0) in H. destruct H as (i & Hi & <-).
    rewrite Hlen in Hi. specialize (Hnth i Hi).
    destruct (sensor_ok (track c) p v i Hal Hi) as (idx & _ & Hb & Hr).
    rewrite Hr in Hnth. injection Hnth as <-.
    apply (reading_bounds p v i idx _ Hb).
  - intros Hn.
    apply (In_nth _ _ 0) in H. destruct H as (i & Hi & <-).
    rewrite Hlen in Hi. specialize (Hnth i Hi).
    destruct (sensor_ok (track c) p v i Hal Hi) as (idx & _ & Hb & Hr).
    rewrite Hr in Hnth. injection Hnth as <-.
    destruct (reading_bounds p v i idx _ Hb) as [_ [->|Hle]]; [lra|].
    assert (H707 : INR (length (xs (track c)) - 2) <= 707).
    { replace 707 with (INR 707) by (rewrite INR_IZR_INZ; reflexivity).
      apply le_INR. lia. }
    pose proof sqrt2_bound. pose proof (sqrt_pos 2).
    unfold max_dist. nra.
Qed.

Lemma sensor_distance_bounds_witness :
  exists ds,
    get_surrounding (1, 4) (0, 0) car14 = Ok (ds, car14) /\
    length ds = length eyes /\
    forall d, In d ds ->
      0 <= d /\
      (d = max_dist \/ d <= sqrt 2 * INR (length (xs (track car14)) - 2)) /\
      ((length (xs (track car14)) <= 709)%nat -> d <= max_dist).
Proof.
  apply (sensor_distance_bounds car14 (1, 4) (0, 0)). split; reflexivity.
Defined.

(** C3 as stated fails: in a straight corridor of 1003 samples whose upper
    boundary lies at 1001.5, the first ray of a car at rest at [(1, 0)]
    changes side once, at sample 1001, and reads 1001, above [max_dist]. *)
Lemma sensor_reading_above_sentinel :
  exists ds d,
    get_surrounding (1, 0) (0, 0) (far_car 1001) = Ok (ds, far_car 1001) /\
    In d ds /\ max_dist < d.
Proof.
  pose proof (aligned_far_track 1001) as Hal.
  destruct (sensors_ok (far_track 1001) (1, 0) (0, 0) Hal) as (ds & Hs & Hlen & Hnth).
  exists ds, (nth 0 ds 0). split; [|split].
  - rewrite get_surrounding_eq. change (track (far_car 1001)) with (far_track 1001).
    now rewrite Hs.
  - apply nth_In. rewrite Hlen. simpl. lia.
  - specialize (Hnth 0%nat ltac:(simpl; lia)).
    rewrite far_track_reading in Hnth.
    assert (E : nth 0 ds 0 = INR 1001) by congruence.
    rewrite E, INR_IZR_INZ. unfold max_dist. apply IZR_lt. reflexivity.
Qed.

(** C9.  Whatever position and velocity it is given, whenever
    [get_surrounding] returns, the car it returns is the car it was called
    on: position, velocity, acceleration, the previous position and
    velocity, the three histories and the track are all unchanged, and all
    it yields is the list of readings.  On an aligned track it does return,
    with one reading per ray. *)
Theorem get_surrounding_reads_only (c : Car) (p v : vec2) (ds : list R) (c' : Car) :
  (get_surrounding p v c = Ok (ds, c') -> c' = c) /\
  (aligned (track c) ->
   exists ds0, get_surrounding p v c = Ok (ds0, c) /\ length ds0 = length eyes).
Proof.
  split.
  - apply read_only_get_surrounding.
  - intros Hal.
    destruct (sensors_ok (track c) p v Hal) as (ds0 & Hs & Hlen & _).
    exists ds0. rewrite get_surrounding_eq, Hs. split; [reflexivity | assumption].
Qed.

Lemma get_surrounding_reads_only_witness :
  car14 = car14 /\
  exists ds0, get_surrounding (1, 4) (0, 0) car14 = Ok (ds0, car14) /\
              length ds0 = length eyes.
Proof.
  split.
  - exact (proj1 (get_surrounding_reads_only car14 (1, 4) (0, 0)
                    [max_dist; max_dist; max_dist; max_dist] car14)
                 car14_readings).
  - exact (proj2 (get_surrounding_reads_only car14 (1, 4) (0, 0) [] car14)
                 (conj eq_refl eq_refl)).
Defined.

(** ** One step *)

Lemma run_eq f c :
  run f c = match observe c with
            | Ok params => resume c params (f params)
            | Raise e => Raise e
            end.
Proof.
  unfold run, observe.
  erewrite bind_ok by reflexivity. erewrite bind_ok by reflexivity.
  unfold bind at 1. rewrite get_surrounding_eq. unfold lift at 1.
  destruct (sensors (track c) (pos c) (vel c)) as [dist|e]; [|reflexivity].
  erewrite bind_ok by reflexivity. erewrite bind_ok by reflexivity.
  unfold bind at 1. rewrite get_surrounding_eq. unfold lift at 1.
  destruct (sensors (track c) (last_pos c) (last_vel c)) as [last_dist|e];
    [|reflexivity].
  erewrite bind_ok by reflexivity. erewrite bind_ok by reflexivity.
  cbn [bindR]. unfold resume.
  unfold bind at 1, lift at 1.
  destruct (f _) as [a|e]; [|reflexivity].
  erewrite bind_ok by reflexivity.
  unfold bind, ret.
  destruct (update (set_accl a c)) as [[[] c']|e]; reflexivity.
Qed.

Lemma observe_ok c : aligned (track c) -> exists params, observe c = Ok params.
Proof.
  intros Hal. unfold observe.
  destruct (sensors_ok (track c) (pos c) (vel c) Hal) as (d1 & -> & _).
  destruct (sensors_ok (track c) (last_pos c) (last_vel c) Hal) as (d2 & -> & _).
  simpl. eauto.
Qed.

Lemma run_rel_fun f c o : run_rel (fun p r => r = f p) c o <-> o = run f c.
Proof.
  rewrite run_eq. split.
  - intros H. destruct H as [e He|params r Hp Hr].
    + now rewrite He.
    + now rewrite Hp, Hr.
  - intros ->. destruct (observe c) as [params|e] eqn:E.
    + now apply run_rel_decide.
    + now apply run_rel_raise.
Qed.

(** The legality test in a corridor of constant bounds. *)

Lemma search_from_bound key arr : forall i,
  (i <= np.search_from key i arr <= i + length arr)%nat.
Proof.
  induction arr as [|a arr IH]; intros i; simpl; [lia|].
  destruct (_ <=? _); [|lia]. specialize (IH (S i)). lia.
Qed.

Lemma interp_repeat x xp c :
  xp <> [] -> np.interp x xp (repeat c (length xp)) = Ok c.
Proof.
  intros Hne. destruct xp as [|x0 xp'] eqn:E; [contradiction|].
  unfold np.interp. rewrite <- E in *.
  assert (Hlen : (0 < length xp)%nat) by (rewrite E; simpl; lia).
  rewrite repeat_length, Nat.eqb_refl. cbn [negb].
  destruct (_ <? _).
  { rewrite last_nth, repeat_length. now rewrite nth_repeat_lt by lia. }
  destruct (_ <? _).
  { now rewrite nth_repeat_lt by lia. }
  cbv zeta.
  assert (Hj : (np.binary_search x xp <= length xp - 1)%nat).
  { unfold np.binary_search.
    pose proof (search_from_bound x (tl xp) 1).
    assert (length (tl xp) = length xp - 1)%nat by (rewrite E; simpl; lia).
    lia. }
  destruct (Nat.eqb_spec (np.binary_search x xp) (length xp - 1)).
  { now rewrite nth_repeat_lt by lia. }
  destruct (_ =? _).
  { now rewrite nth_repeat_lt by lia. }
  rewrite !nth_repeat_lt by lia. f_equal. unfold Rdiv. ring.
Qed.

Lemma legal_at_corridor tr lo hi e p :
  corridor tr lo hi ->
  legal_at tr e p
  = Ok (((lo <? snd p) && (snd p <? hi)) && ((0 <? fst p) && (fst p <? e))).
Proof.
  intros (Hne & Hlo & Hhi). unfold legal_at.
  rewrite Hlo, Hhi, !interp_repeat by assumption. reflexivity.
Qed.

Lemma corridor_aligned tr lo hi : corridor tr lo hi -> aligned tr.
Proof.
  intros (_ & Hlo & Hhi). unfold aligned.
  rewrite Hlo, Hhi, !repeat_length. split; reflexivity.
Qed.

Lemma corridor_track3 : corridor track3 (-5) 5.
Proof. repeat split. discriminate. Qed.

(** ** Evaluating steps in a corridor *)

Lemma steps_S f n c :
  steps f (S n) c = match run f c with
                    | Ok (_, c') => steps f n c'
                    | Raise e => Raise e
                    end.
Proof. reflexivity. Qed.

Lemma steps_add f n m c :
  steps f (n + m) c = match steps f n c with
                      | Ok c' => steps f m c'
                      | Raise e => Raise e
                      end.
Proof.
  revert c. induction n as [|n IH]; intros c; [reflexivity|].
  cbn [Nat.add]. rewrite !steps_S.
  destruct (run f c) as [[p c']|e]; [apply IH | reflexivity].
Qed.

(** Split on one comparison of the goal. *)
Ltac case_ltb :=
  match goal with
  | |- context [Rltb ?a ?b] =>
      lazymatch a with context [Rltb _ _] => fail | _ => idtac end;
      lazymatch b with context [Rltb _ _] => fail | _ => idtac end;
      destruct (Rlt_dec a b);
      [ rewrite (Rltb_true a b) by assumption
      | rewrite (Rltb_false a b) by assumption ];
      cbn [fst snd]
  end.

Lemma clamp_vel_bounds v :
  (0 <= fst (clamp_vel v) <= fst max_vel) /\
  (- snd max_vel <= snd (clamp_vel v) <= snd max_vel).
Proof.
  destruct v as [v0 v1]. unfold clamp_vel, max_vel. cbn [fst snd].
  repeat case_ltb; lra.
Qed.

Lemma clamp_vel_id v :
  0 <= fst v <= 25 -> -25 <= snd v <= 25 -> clamp_vel v = v.
Proof.
  destruct v as [v0 v1]. cbn [fst snd]. intros H0 H1.
  unfold clamp_vel, max_vel. cbn [fst snd].
  repeat (rcmp; cbn [fst snd]). reflexivity.
Qed.

Lemma run_corridor f c lo hi :
  corridor (track c) lo hi ->
  exists params, observe c = Ok params /\ run f c = resume c params (f params).
Proof.
  intros H. destruct (observe_ok c (corridor_aligned _ _ _ H)) as [params Hp].
  exists params. split; [assumption|]. now rewrite run_eq, Hp.
Qed.

(** Equality of two cars, of two positions, of two histories, component by
    component; numbers are compared by [lra]. *)
Ltac same :=
  lazymatch goal with
  | |- @eq R _ _ => lra
  | |- @eq (R * R) (_, _) (_, _) => apply f_equal2; same
  | |- @eq (list _) [] [] => reflexivity
  | |- @eq (list _) (_ :: _) (_ :: _) => apply f_equal2; same
  | |- @eq Car (mkCar _ _ _ _ _ _ _ _ _ _) (mkCar _ _ _ _ _ _ _ _ _ _) =>
      f_equal; same
  | |- @eq (result _) (Ok _) (Ok _) => apply f_equal; same
  | |- @eq (unit * Car) (_, _) (_, _) => apply f_equal; same
  | |- @eq Track _ _ => reflexivity
  end.

Lemma update_corridor tr p a v lv lp ph vh ah e lo hi :
  corridor tr lo hi ->
  update (mkCar tr p a v lv lp ph vh ah e) =
  if ((lo <? snd (vadd p (clamp_vel v))) && (snd (vadd p (clamp_vel v)) <? hi))
     && ((0 <? fst (vadd p (clamp_vel v))) && (fst (vadd p (clamp_vel v)) <? e))
  then match np.iadd2 (clamp_vel v) a with
       | Ok v' =>
           Ok (tt, mkCar tr (vadd p (clamp_vel v)) a v' v p
                         (ph ++ [vadd p (clamp_vel v)]) (vh ++ [v']) (ah ++ [a]) e)
       | Raise er => Raise er
       end
  else Ok (tt, mkCar tr p [0; 0] np.zeros2 v p
                     (ph ++ [p]) (vh ++ [np.zeros2]) (ah ++ [[0; 0]]) e).
Proof.
  intros H. rewrite update_eq.
  change (track (mkCar tr p a v lv lp ph vh ah e)) with tr.
  change (end_ (mkCar tr p a v lv lp ph vh ah e)) with e.
  rewrite (legal_at_corridor tr lo hi) by assumption.
  change (pos (tentative (mkCar tr p a v lv lp ph vh ah e)))
    with (vadd p (clamp_vel v)).
  destruct (_ && _); [|reflexivity].
  change (vel (tentative (mkCar tr p a v lv lp ph vh ah e))) with (clamp_vel v).
  change (accl (mkCar tr p a v lv lp ph vh ah e)) with a.
  destruct (np.iadd2 _ _); reflexivity.
Qed.

(** One step of a car on [track3] under a constant decision function. *)
Ltac trip_step :=
  rewrite steps_S;
  match goal with
  | |- context [run ?f ?c] =>
      let params := fresh "params" in
      destruct (run_corridor f c (-5) 5 corridor_track3) as (params & _ & ->);
      unfold f, resume
  end;
  unfold set_accl;
  cbn [track pos accl vel last_vel last_pos pos_history vel_history
       accl_history end_];
  rewrite (update_corridor _ _ _ _ _ _ _ _ _ _ _ _ corridor_track3);
  rewrite clamp_vel_id by (cbn [fst snd]; lra);
  unfold vadd; cbn [fst snd]; rcmp;
  cbn [andb np.iadd2 fst snd app steps].

(** [car0] is the car that [__init__] builds on [track3], whatever it draws:
    the band of the lateral position shrinks to the point 0. *)
Lemma car0_built u : init track3 u = Ok car0.
Proof. unfold init, track3, car0, uniform, np.zeros2. cbn [xs lower upper last]. same. Qed.

Lemma trip_step1 : steps decide12 1 car0 = Ok trip1.
Proof. unfold car0, trip1. trip_step. same. Qed.

Lemma trip_step2 : steps decide12 1 trip1 = Ok trip2.
Proof. unfold trip1, trip2. trip_step. same. Qed.

Lemma trip_step3 : steps decide12 1 trip2 = Ok trip3.
Proof. unfold trip2, trip3. trip_step. same. Qed.

Lemma trip_step4 : steps decide12 1 trip3 = Ok trip4.
Proof. unfold trip3, trip4. trip_step. same. Qed.

Lemma trip_step5 : steps decide12 1 trip4 = Ok trip5.
Proof. unfold trip4, trip5. trip_step. same. Qed.

(** The scenarios of the specification.  From rest at [(1, 0)] a step
    under the decision [(1, 0)] is legal, leaves the position where it is
    and sets the velocity to [(1, 0)]. *)
Lemma scenario_legal_step :
  steps decide10 1 car0
  = Ok (mkCar track3 (1, 0) [1; 0] (1, 0) (0, 0) (1, 0)
              [(1, 0); (1, 0)] [(0, 0); (1, 0)] [[0; 0]; [1; 0]] 20).
Proof. unfold car0. trip_step. same. Qed.

(** From [(1, 4.9)] with velocity [(0, 10)] the tentative position
    [(1, 14.9)] is not legal: the step puts the car back to [(1, 4.9)] and
    sets velocity and acceleration to zero. *)
Lemma scenario_rollback :
  steps decide10 1 car_near_wall
  = Ok (mkCar track3 (1, 49 / 10) [0; 0] (0, 0) (0, 10) (1, 49 / 10)
              [(1, 49 / 10); (1, 49 / 10)] [(0, 10); (0, 0)]
              [[0; 0]; [0; 0]] 20).
Proof. unfold car_near_wall. trip_step. same. Qed.

(** ** The outcome of one update and of one step *)

Lemma legal_at_false tr e p : legal_at tr e p = Ok false -> ~ Legal tr e p.
Proof. intros H HL. apply legal_at_true in HL. congruence. Qed.

Lemma Legal_corridor tr lo hi e p :
  corridor tr lo hi ->
  (Legal tr e p <-> (lo < snd p < hi /\ 0 < fst p < e)).
Proof.
  intros (Hne & Hlo & Hhi). unfold Legal. rewrite Hlo, Hhi. split.
  - intros (l & h & Hl & Hh & H1 & H2).
    rewrite interp_repeat in Hl, Hh by assumption.
    injection Hl as <-. injection Hh as <-. split; assumption.
  - intros [H1 H2]. exists lo, hi.
    rewrite !interp_repeat by assumption. repeat split; tauto.
Qed.

Lemma update_cases c c' :
  update c = Ok (tt, c') ->
  track c' = track c /\ end_ c' = end_ c /\
  pos_history c' = pos_history c ++ [pos c'] /\
  vel_history c' = vel_history c ++ [vel c'] /\
  accl_history c' = accl_history c ++ [accl c'] /\
  last_pos c' = pos c /\ last_vel c' = vel c /\
  ((Legal (track c) (end_ c) (pos (tentative c)) /\
    pos c' = pos (tentative c) /\
    np.iadd2 (clamp_vel (vel c)) (accl c) = Ok (vel c') /\
    accl c' = accl c)
   \/
   (legal_at (track c) (end_ c) (pos (tentative c)) = Ok false /\
    pos c' = pos c /\ vel c' = np.zeros2 /\ accl c' = [0; 0])).
Proof.
  rewrite update_eq.
  destruct (legal_at _ _ _) as [[|]|e] eqn:E; [| |discriminate].
  - change (vel (tentative c)) with (clamp_vel (vel c)).
    destruct (np.iadd2 _ _) as [v'|e] eqn:Ev; [|discriminate].
    intros H. injection H as <-.
    repeat split. left. apply legal_at_true in E. repeat split; assumption.
  - intros H. injection H as <-.
    repeat split. right. repeat split.
Qed.

Lemma run_cases f c params c' :
  run f c = Ok (params, c') ->
  exists a, observe c = Ok params /\ f params = Ok a /\
            update (set_accl a c) = Ok (tt, c').
Proof.
  rewrite run_eq. destruct (observe c) as [q|e]; [|discriminate].
  unfold resume. destruct (f q) as [a|e] eqn:Ef; [|discriminate].
  destruct (update _) as [[[] c1]|e] eqn:Eu; [|discriminate].
  intros H. injection H as <- <-. exists a. repeat split; assumption.
Qed.

Lemma steps_1 f c c' :
  steps f 1 c = Ok c' <-> exists params, run f c = Ok (params, c').
Proof.
  rewrite steps_S. split.
  - destruct (run f c) as [[p c1]|e]; [|discriminate].
    simpl. intros H. injection H as <-. eauto.
  - intros [p ->]. reflexivity.
Qed.

Lemma vadd_zero p : vadd p np.zeros2 = p.
Proof. destruct p as [x y]. unfold vadd, np.zeros2. cbn [fst snd]. f_equal; ring. Qed.

Lemma clamp_vel_zero : clamp_vel np.zeros2 = np.zeros2.
Proof. apply clamp_vel_id; cbn; lra. Qed.

(** ** The claims about the step *)

Lemma clamp_vel_saturates v :
  fst (clamp_vel v) = Rmax 0 (Rmin (fst v) (fst max_vel)) /\
  snd (clamp_vel v) = Rmax (- snd max_vel) (Rmin (snd v) (snd max_vel)).
Proof.
  destruct v as [v0 v1]. unfold clamp_vel, max_vel. cbn [fst snd].
  unfold Rmax, Rmin.
  repeat case_ltb; repeat destruct (Rle_dec _ _); split; lra.
Qed.

(** C6.  In every [update] the velocity is clamped before the position is
    integrated and not after: after the snapshot and the four clamping tests
    the velocity is the velocity the step began with, clamped: its forward
    component is the old one brought into [[0, max_forward]] (the bound
    where the old one lies beyond it, the old one itself where it lies
    inside) and its lateral component is the old one brought into
    [[-max_lateral, max_lateral]] in the same way, and the snapshot holds
    the old velocity, unclamped; so the forward component lies in
    [[0, max_forward]] and the lateral one in [[-max_lateral, max_lateral]]
    while the position is still the old one; the integration adds exactly
    that clamped velocity to the position and leaves the velocity alone;
    what remains of [update] is the legality branch and the history
    appends, after which the velocity is either zero or the clamped
    velocity plus the acceleration, unclamped. *)
Theorem velocity_clamped_before_integration (c : Car) :
  exists c1 c2,
    (snapshot ;;; clamp) c = Ok (tt, c1) /\
    (vel c1 = clamp_vel (vel c) /\ last_vel c1 = vel c /\
     fst (vel c1) = Rmax 0 (Rmin (fst (vel c)) (fst max_vel)) /\
     snd (vel c1) = Rmax (- snd max_vel) (Rmin (snd (vel c)) (snd max_vel))) /\
    (0 <= fst (vel c1) <= fst max_vel /\
     - snd max_vel <= snd (vel c1) <= snd max_vel) /\
    pos c1 = pos c /\
    integrate c1 = Ok (tt, c2) /\
    pos c2 = vadd (pos c) (vel c1) /\ vel c2 = vel c1 /\
    update c = (settle ;;; log_history) c2 /\
    match update c with
    | Ok (_, c') =>
        vel c' = np.zeros2 \/ np.iadd2 (vel c1) (accl c) = Ok (vel c')
    | Raise _ => True
    end.
Proof.
  exists (set_vel (clamp_vel (vel c)) (set_last_vel (vel c) (set_last_pos (pos c) c))),
         (tentative c).
  split; [|split; [|split; [|split; [|split; [|split; [|split; [|split]]]]]]].
  - erewrite bind_ok by reflexivity.
    exact (clamp_eq (set_last_vel (vel c) (set_last_pos (pos c) c))).
  - split; [reflexivity|]. split; [reflexivity|].
    exact (clamp_vel_saturates (vel c)).
  - apply clamp_vel_bounds.
  - reflexivity.
  - reflexivity.
  - reflexivity.
  - reflexivity.
  - unfold update.
    erewrite bind_ok by reflexivity.
    erewrite bind_ok by apply clamp_eq.
    erewrite bind_ok by reflexivity. reflexivity.
  - destruct (update c) as [[[] c']|e] eqn:E; [|exact I].
    apply update_cases in E.
    destruct E as (_ & _ & _ & _ & _ & _ & _ & [(_ & _ & H & _)|(_ & _ & H & _)]).
    + right. exact H.
    + left. exact H.
Qed.

(** The velocity that a legal step records is not clamped: from the
    forward velocity 25 and the acceleration [(1, 0)] the car moves by 25 and
    records the velocity 26. *)
Lemma velocity_unclamped_after_integration :
  exists c', update (mkCar (far_track 100) (1, 0) [1; 0] (25, 0) (0, 0) (0, 0)
                           [(1, 0)] [(25, 0)] [[0; 0]] 101) = Ok (tt, c') /\
             pos c' = (26, 0) /\ vel c' = (26, 0).
Proof.
  assert (H : corridor (far_track 100) (-1) (INR 100 + / 2)).
  { unfold corridor, far_track, np.arange. cbn [xs lower upper].
    rewrite length_map, length_seq. repeat split. discriminate. }
  assert (H100 : INR 100 = 100) by (rewrite INR_IZR_INZ; reflexivity).
  eexists. rewrite (update_corridor _ _ _ _ _ _ _ _ _ _ _ _ H), H100.
  rewrite clamp_vel_id by (cbn [fst snd]; lra).
  unfold vadd. cbn [fst snd]. rcmp. cbn [andb np.iadd2 fst snd app].
  split; [reflexivity|]. cbn [pos vel]. split; same.
Qed.

Lemma run_outcome f c params c' :
  run f c = Ok (params, c') ->
  track c' = track c /\ end_ c' = end_ c /\
  pos_history c' = pos_history c ++ [pos c'] /\
  ((Legal (track c) (end_ c) (pos (tentative c)) /\ pos c' = pos (tentative c) /\
    exists a, f params = Ok a /\ accl c' = a /\
              np.iadd2 (clamp_vel (vel c)) a = Ok (vel c'))
   \/
   (~ Legal (track c) (end_ c) (pos (tentative c)) /\
    pos c' = pos c /\ vel c' = np.zeros2 /\ accl c' = [0; 0])).
Proof.
  intros H. apply run_cases in H. destruct H as (a & _ & Hf & Hu).
  apply update_cases in Hu.
  destruct Hu as (Ht & He & Hp & _ & _ & _ & _ & Hc).
  repeat split; try assumption.
  destruct Hc as [(HL & Hpos & Hv & Ha)|(HL & Hpos & Hv & Ha)].
  - left. repeat split; try assumption. exists a. repeat split; assumption.
  - right. apply legal_at_false in HL. repeat split; assumption.
Qed.

Lemma rollback_invariant_snoc tr e h p q :
  rollback_invariant tr e (h ++ [p]) ->
  Legal tr e q \/ q = p ->
  rollback_invariant tr e ((h ++ [p]) ++ [q]).
Proof.
  intros Hinv Hq i Hi. rewrite !length_app in Hi. simpl in Hi.
  destruct (Nat.eq_dec i (length h + 1)) as [->|Hne].
  - rewrite (app_nth2 (h ++ [p])) by (rewrite length_app; simpl; lia).
    rewrite length_app. simpl length. rewrite Nat.sub_diag. simpl nth at 1.
    replace (length h + 1 - 1)%nat with (length h) by lia.
    rewrite (app_nth1 (h ++ [p])) by (rewrite length_app; simpl; lia).
    rewrite (app_nth2 h) by lia. rewrite Nat.sub_diag. simpl nth. assumption.
  - rewrite !(app_nth1 (h ++ [p])) by (rewrite length_app; simpl; lia).
    apply Hinv. rewrite length_app. simpl. lia.
Qed.

Lemma steps_invariant f n : forall c0 c,
  (exists h, pos_history c0 = h ++ [pos c0]) ->
  rollback_invariant (track c0) (end_ c0) (pos_history c0) ->
  steps f n c0 = Ok c ->
  track c = track c0 /\ end_ c = end_ c0 /\
  (exists h, pos_history c = h ++ [pos c]) /\
  rollback_invariant (track c0) (end_ c0) (pos_history c) /\
  length (pos_history c) = (n + length (pos_history c0))%nat /\
  (forall p, In p (pos_history c) ->
             Legal (track c0) (end_ c0) p \/ In p (pos_history c0)).
Proof.
  induction n as [|n IH]; intros c0 c Hlast Hinv H.
  - simpl in H. injection H as <-. repeat split; try assumption. auto.
  - rewrite steps_S in H.
    destruct (run f c0) as [[params c1]|e] eqn:E; [|discriminate].
    apply run_outcome in E. destruct E as (Ht & He & Hp & Hc).
    destruct Hlast as [h Hh].
    assert (Hq : Legal (track c0) (end_ c0) (pos c1) \/ pos c1 = pos c0).
    { destruct Hc as [(HL & -> & _)|(_ & -> & _)]; [left; assumption | right; reflexivity]. }
    destruct (IH c1 c) as (Ht' & He' & Hlast' & Hinv' & Hlen & Hall).
    + eauto.
    + rewrite Ht, He, Hp, Hh. apply rollback_invariant_snoc; [|assumption].
      rewrite <- Hh. assumption.
    + assumption.
    + rewrite Ht, He in *. repeat split; try assumption; try congruence.
      * rewrite Hlen, Hp, length_app. simpl. lia.
      * intros p Hin. destruct (Hall p Hin) as [HL|Hin']; [left; assumption|].
        rewrite Hp in Hin'. apply in_app_or in Hin'.
        destruct Hin' as [Hin'|[<-|[]]]; [right; assumption|].
        destruct Hq as [Hq|Hq]; [left; assumption|].
        right. rewrite Hq, Hh. apply in_or_app. right. left. reflexivity.
Qed.

(** C1, as the code has it.  Whatever the decision function, (1) a step
    whose tentative position is not legal puts the position back to the one
    before the step, sets velocity and acceleration to zero and records
    that previous position, and (2) after any number of steps of a newly
    built car (its history holds its position) the history holds one
    position per step and the first one, each entry from index 1 on is
    legal or equal to the entry before it, and every recorded position is
    legal or is the position the car was built with.  That a car is never
    recorded at a position that is not legal does not follow: the position
    it was built with is not tested, and the rollback records it again. *)
Theorem rollback_invariant_holds (f : list R -> result (list R)) :
  (forall c params c',
     run f c = Ok (params, c') ->
     ~ Legal (track c) (end_ c) (pos (tentative c)) ->
     pos c' = pos c /\ vel c' = np.zeros2 /\ accl c' = [0; 0] /\
     pos_history c' = pos_history c ++ [pos c]) /\
  (forall c0 n c,
     pos_history c0 = [pos c0] ->
     steps f n c0 = Ok c ->
     length (pos_history c) = S n /\
     rollback_invariant (track c) (end_ c) (pos_history c) /\
     (forall p, In p (pos_history c) ->
                Legal (track c) (end_ c) p \/ p = pos c0)).
Proof.
  split.
  - intros c params c' H HL. apply run_outcome in H.
    destruct H as (_ & _ & Hp & [(HL' & _)|(_ & Hpos & Hv & Ha)]); [contradiction|].
    rewrite Hpos in Hp. repeat split; assumption.
  - intros c0 n c Hh H.
    destruct (steps_invariant f n c0 c) as (Ht & He & _ & Hinv & Hlen & Hall).
    + exists []. assumption.
    + intros i Hi. rewrite Hh in Hi. simpl in Hi. lia.
    + assumption.
    + rewrite Ht, He. repeat split.
      * rewrite Hlen, Hh. simpl. lia.
      * assumption.
      * intros p Hin. destruct (Hall p Hin) as [HL|Hin']; [left; assumption|].
        rewrite Hh in Hin'. destruct Hin' as [<-|[]]. right. reflexivity.
Qed.

Lemma trip_steps3 : steps decide12 3 car0 = Ok trip3.
Proof.
  change 3%nat with (1 + (1 + 1))%nat.
  rewrite steps_add, trip_step1, steps_add, trip_step2. apply trip_step3.
Qed.

Lemma trip_run3 : exists params, run decide12 trip2 = Ok (params, trip3).
Proof. apply steps_1. apply trip_step3. Qed.

Lemma trip2_leaves_corridor : ~ Legal track3 20 (pos (tentative trip2)).
Proof.
  rewrite (Legal_corridor track3 (-5) 5) by apply corridor_track3.
  unfold trip2, tentative, set_pos. cbn [pos vel].
  rewrite clamp_vel_id by (cbn [fst snd]; lra).
  unfold vadd. cbn [fst snd]. lra.
Qed.

Lemma rollback_invariant_holds_witness :
  (pos trip3 = pos trip2 /\ vel trip3 = np.zeros2 /\ accl trip3 = [0; 0] /\
   pos_history trip3 = pos_history trip2 ++ [pos trip2]) /\
  (length (pos_history trip3) = 4%nat /\
   rollback_invariant (track trip3) (end_ trip3) (pos_history trip3) /\
   (forall p, In p (pos_history trip3) ->
              Legal (track trip3) (end_ trip3) p \/ p = pos car0)).
Proof.
  split.
  - destruct trip_run3 as [params H].
    exact (proj1 (rollback_invariant_holds decide12) trip2 params trip3 H
                 trip2_leaves_corridor).
  - exact (proj2 (rollback_invariant_holds decide12) car0 3%nat trip3
                 eq_refl trip_steps3).
Defined.

Lemma corridor_track_high : corridor track_high 100 200.
Proof. repeat split. discriminate. Qed.

(** The car that the constructor builds on [track_high] at the low end of
    its band stands at [(1, 75)], below the corridor; its first step is
    rolled back and records that position a second time.  So the history
    holds, at index 1, a position written by a step that is not legal. *)
Lemma illegal_start_is_recorded :
  init track_high 0 = Ok car_high /\
  steps decide12 1 car_high = Ok car_high1 /\
  nth 1 (pos_history car_high1) (0, 0) = (1, 75) /\
  ~ Legal (track car_high1) (end_ car_high1) (nth 1 (pos_history car_high1) (0, 0)).
Proof.
  split; [|split; [|split]].
  - unfold init, track_high, car_high, uniform, np.zeros2.
    cbn [xs lower upper last]. same.
  - unfold car_high, car_high1. rewrite steps_S.
    destruct (run_corridor decide12
                (mkCar track_high (1, 75) [0; 0] (0, 0) (0, 0) (0, 0)
                       [(1, 75)] [(0, 0)] [[0; 0]] 20)
                100 200 corridor_track_high) as (params & _ & ->).
    unfold decide12, resume, set_accl.
    cbn [track pos accl vel last_vel last_pos pos_history vel_history
         accl_history end_].
    rewrite (update_corridor _ _ _ _ _ _ _ _ _ _ _ _ corridor_track_high).
    rewrite clamp_vel_id by (cbn [fst snd]; lra).
    unfold vadd. cbn [fst snd]. rcmp.
    cbn [andb np.iadd2 fst snd app steps]. unfold np.zeros2. same.
  - reflexivity.
  - change (track car_high1) with track_high.
    change (end_ car_high1) with 20.
    change (nth 1 (pos_history car_high1) (0, 0)) with (1, 75).
    rewrite (Legal_corridor track_high 100 200) by apply corridor_track_high.
    cbn [fst snd]. lra.
Qed.

Lemma tentative_at_rest c :
  vel c = np.zeros2 -> pos (tentative c) = pos c.
Proof.
  intros Hv. unfold tentative, set_pos. cbn [pos]. rewrite Hv, clamp_vel_zero.
  apply vadd_zero.
Qed.

Lemma stuck_forever f n : forall c cn,
  vel c = np.zeros2 ->
  ~ Legal (track c) (end_ c) (pos c) ->
  steps f n c = Ok cn ->
  pos cn = pos c /\ vel cn = np.zeros2.
Proof.
  induction n as [|n IH]; intros c cn Hv HL H.
  - simpl in H. injection H as <-. split; [reflexivity | assumption].
  - rewrite steps_S in H.
    destruct (run f c) as [[params c1]|e] eqn:E; [|discriminate].
    apply run_outcome in E. rewrite (tentative_at_rest c Hv) in E.
    destruct E as (Ht & He & _ & [(HL' & _)|(_ & Hp & Hv1 & _)]); [contradiction|].
    destruct (IH c1 cn) as [Hp' Hv']; try assumption.
    + rewrite Ht, He, Hp. assumption.
    + split; congruence.
Qed.

(** C4, as the code has it.  After a step whose legality check fails the
    car stands at the position it had before that step with velocity and
    acceleration zero.  The next step leaves the position where it is; it
    leaves the velocity at zero only when that position is not legal, and
    otherwise sets the velocity to the zero velocity plus the new decision.
    The car stays at that position with velocity zero for all later steps
    when the position it was rolled back to is itself not legal. *)
Theorem crash_then_restart (f : list R -> result (list R)) (c c1 : Car)
  (params : list R) :
  run f c = Ok (params, c1) ->
  ~ Legal (track c) (end_ c) (pos (tentative c)) ->
  (pos c1 = pos c /\ vel c1 = np.zeros2 /\ accl c1 = [0; 0]) /\
  (forall params2 c2,
     run f c1 = Ok (params2, c2) ->
     pos c2 = pos c1 /\
     ((Legal (track c) (end_ c) (pos c1) /\
       exists a, f params2 = Ok a /\ np.iadd2 np.zeros2 a = Ok (vel c2))
      \/ (~ Legal (track c) (end_ c) (pos c1) /\ vel c2 = np.zeros2))) /\
  (~ Legal (track c) (end_ c) (pos c) ->
   forall n cn, steps f n c1 = Ok cn -> pos cn = pos c1 /\ vel cn = vel c1).
Proof.
  intros H HL. apply run_outcome in H.
  destruct H as (Ht & He & _ & [(HL' & _)|(_ & Hp & Hv & Ha)]); [contradiction|].
  split; [repeat split; assumption|]. split.
  - intros params2 c2 H2. apply run_outcome in H2.
    rewrite (tentative_at_rest c1 Hv), Ht, He in H2.
    destruct H2 as (_ & _ & _ & [(HL2 & Hp2 & a & Hf & _ & Hi)|(HL2 & Hp2 & Hv2 & _)]).
    + split; [assumption|]. left. split; [assumption|].
      exists a. rewrite Hv, clamp_vel_zero in Hi. split; assumption.
    + split; [assumption|]. right. split; assumption.
  - intros HLc n cn Hn.
    destruct (stuck_forever f n c1 cn) as [Hpn Hvn]; try assumption.
    + rewrite Ht, He, Hp. assumption.
    + split; congruence.
Qed.

Lemma crash_then_restart_witness :
  (pos trip3 = pos trip2 /\ vel trip3 = np.zeros2 /\ accl trip3 = [0; 0]) /\
  (forall params2 c2,
     run decide12 trip3 = Ok (params2, c2) ->
     pos c2 = pos trip3 /\
     ((Legal (track trip2) (end_ trip2) (pos trip3) /\
       exists a, decide12 params2 = Ok a /\ np.iadd2 np.zeros2 a = Ok (vel c2))
      \/ (~ Legal (track trip2) (end_ trip2) (pos trip3) /\ vel c2 = np.zeros2))) /\
  (~ Legal (track trip2) (end_ trip2) (pos trip2) ->
   forall n cn, steps decide12 n trip3 = Ok cn ->
                pos cn = pos trip3 /\ vel cn = vel trip3).
Proof.
  destruct trip_run3 as [params H].
  exact (crash_then_restart decide12 trip2 trip3 params H trip2_leaves_corridor).
Defined.

(** C4 as stated fails.  Under the decision [(1, 2)] the car built at
    [(1, 0)] reaches [trip2] in two steps; its third step leaves the
    corridor and is rolled back to [(2, 2)] with velocity zero; the fourth
    step changes the velocity to [(1, 2)] and the fifth moves the car to
    [(3, 4)]. *)
Lemma crash_is_not_terminal :
  steps decide12 2 car0 = Ok trip2 /\
  ~ Legal track3 20 (pos (tentative trip2)) /\
  exists p3 p4 p5,
    run decide12 trip2 = Ok (p3, trip3) /\
    run decide12 trip3 = Ok (p4, trip4) /\
    run decide12 trip4 = Ok (p5, trip5) /\
    vel trip4 <> vel trip3 /\ pos trip5 <> pos trip3.
Proof.
  split; [|split].
  - change 2%nat with (1 + 1)%nat. rewrite steps_add, trip_step1. apply trip_step2.
  - apply trip2_leaves_corridor.
  - destruct (proj1 (steps_1 _ _ _) trip_step3) as [p3 H3].
    destruct (proj1 (steps_1 _ _ _) trip_step4) as [p4 H4].
    destruct (proj1 (steps_1 _ _ _) trip_step5) as [p5 H5].
    exists p3, p4, p5. repeat split; try assumption.
    + cbn. intros H. injection H. lra.
    + cbn. intros H. injection H. lra.
Qed.

(** C7, as the code has it.  The step applies no check of its own to what
    the decision function returns.  When the tentative position is legal, an
    answer of one number is added to both components of the velocity and
    recorded as it is, an answer of two numbers is added component by
    component, and an answer of any other length makes the step raise the
    [ValueError] of NumPy's in-place addition.  When the tentative position
    is not legal the answer is dropped, whatever its length, and zeros are
    recorded. *)
Theorem decision_output_unchecked (f : list R -> result (list R)) (c : Car)
  (params a : list R) :
  observe c = Ok params ->
  f params = Ok a ->
  (Legal (track c) (end_ c) (pos (tentative c)) ->
   match a with
   | [x] =>
       exists c', run f c = Ok (params, c') /\ accl c' = [x] /\
                  vel c' = vadd (clamp_vel (vel c)) (x, x) /\
                  accl_history c' = accl_history c ++ [[x]]
   | [x; y] =>
       exists c', run f c = Ok (params, c') /\ accl c' = [x; y] /\
                  vel c' = vadd (clamp_vel (vel c)) (x, y) /\
                  accl_history c' = accl_history c ++ [[x; y]]
   | _ => run f c = Raise ValueError
   end) /\
  (legal_at (track c) (end_ c) (pos (tentative c)) = Ok false ->
   exists c', run f c = Ok (params, c') /\ pos c' = pos c /\
              vel c' = np.zeros2 /\ accl c' = [0; 0] /\
              accl_history c' = accl_history c ++ [[0; 0]]).
Proof.
  intros Ho Hf. rewrite run_eq, Ho, Hf. unfold resume. rewrite update_eq.
  change (track (set_accl a c)) with (track c).
  change (end_ (set_accl a c)) with (end_ c).
  change (pos (tentative (set_accl a c))) with (pos (tentative c)).
  change (vel (tentative (set_accl a c))) with (clamp_vel (vel c)).
  change (accl (set_accl a c)) with a.
  split.
  - intros HL. apply legal_at_true in HL. rewrite HL.
    destruct a as [|x [|y [|z a]]]; cbn [np.iadd2]; try reflexivity.
    + eexists. split; [reflexivity|]. repeat split.
    + eexists. split; [reflexivity|]. repeat split.
  - intros HL. rewrite HL. eexists. split; [reflexivity|]. repeat split.
Qed.

Lemma decision_output_unchecked_witness :
  exists params,
    observe car0 = Ok params /\
    (Legal (track car0) (end_ car0) (pos (tentative car0)) ->
     exists c', run decide1 car0 = Ok (params, c') /\ accl c' = [1] /\
                vel c' = vadd (clamp_vel (vel car0)) (1, 1) /\
                accl_history c' = accl_history car0 ++ [[1]]) /\
    (legal_at (track car0) (end_ car0) (pos (tentative car0)) = Ok false ->
     exists c', run decide1 car0 = Ok (params, c') /\ pos c' = pos car0 /\
                vel c' = np.zeros2 /\ accl c' = [0; 0] /\
                accl_history c' = accl_history car0 ++ [[0; 0]]).
Proof.
  destruct (observe_ok car0 (corridor_aligned _ _ _ corridor_track3)) as [params Hp].
  exists params. split; [assumption|].
  exact (decision_output_unchecked decide1 car0 params [1] Hp eq_refl).
Defined.

(** C7 as stated fails: the decision function [decide1] answers with one
    number where two are expected; the step raises nothing, records the
    answer in the state and in the history as it is, and adds it to both
    components of the velocity. *)
Lemma wrong_arity_is_accepted :
  exists params c',
    run decide1 car0 = Ok (params, c') /\
    accl c' = [1] /\ accl_history c' = [[0; 0]; [1]] /\ vel c' = (1, 1).
Proof.
  destruct (run_corridor decide1 car0 (-5) 5 corridor_track3) as (params & _ & H).
  exists params. rewrite H. unfold decide1, resume, car0, set_accl.
  cbn [track pos accl vel last_vel last_pos pos_history vel_history accl_history end_].
  rewrite (update_corridor _ _ _ _ _ _ _ _ _ _ _ _ corridor_track3).
  rewrite clamp_vel_id by (cbn [fst snd]; lra).
  unfold vadd. cbn [fst snd]. rcmp. cbn [andb np.iadd2 fst snd app].
  eexists. split; [reflexivity|]. cbn [accl accl_history vel].
  repeat split. same.
Qed.

(** C10.  (1) With a decision function that answers the same to the same
    argument, two executions of a step from one state end alike: the same
    exception, or the same parameters and the same successor state, hence
    the same history entries.  (2) Two cars built on one track differ at
    most in the lateral position drawn by the constructor. *)
Theorem step_deterministic :
  (forall D c o1 o2,
      deterministic D -> run_rel D c o1 -> run_rel D c o2 -> o1 = o2) /\
  (forall tr u u' c c',
      init tr u = Ok c -> init tr u' = Ok c' ->
      track c' = track c /\ fst (pos c') = fst (pos c) /\
      accl c' = accl c /\ vel c' = vel c /\
      last_vel c' = last_vel c /\ last_pos c' = last_pos c /\
      pos_history c = [pos c] /\ pos_history c' = [pos c'] /\
      vel_history c' = vel_history c /\ accl_history c' = accl_history c /\
      end_ c' = end_ c).
Proof.
  split.
  - intros D c o1 o2 HD H1 H2.
    destruct H1 as [e1 He1|p1 r1 Hp1 Hr1]; destruct H2 as [e2 He2|p2 r2 Hp2 Hr2];
      try congruence.
    assert (p2 = p1) by congruence. subst p2.
    rewrite (HD p1 r1 r2 Hr1 Hr2). reflexivity.
  - intros tr u u' c c'. unfold init.
    destruct (xs tr) as [|x0 ?]; [discriminate|].
    destruct (lower tr) as [|l0 ?]; [discriminate|].
    destruct (upper tr) as [|u0 ?]; [discriminate|].
    intros H H'. injection H as <-. injection H' as <-.
    repeat split.
Qed.

Lemma step_deterministic_witness :
  run decide12 car0 = run decide12 car0 /\
  exists c c',
    init track3 0 = Ok c /\ init track3 1 = Ok c' /\
    (track c' = track c /\ fst (pos c') = fst (pos c) /\
     accl c' = accl c /\ vel c' = vel c /\
     last_vel c' = last_vel c /\ last_pos c' = last_pos c /\
     pos_history c = [pos c] /\ pos_history c' = [pos c'] /\
     vel_history c' = vel_history c /\ accl_history c' = accl_history c /\
     end_ c' = end_ c).
Proof.
  split.
  - apply (proj1 step_deterministic (fun p r => r = decide12 p) car0).
    + intros p r1 r2 -> ->. reflexivity.
    + apply run_rel_fun. reflexivity.
    + apply run_rel_fun. reflexivity.
  - eexists. eexists. split; [reflexivity|]. split; [reflexivity|].
    apply (proj2 step_deterministic track3 0 1); reflexivity.
Defined.

(** Without that, a step need not be determined: a decision function that
    answers now [(0, 0)] and now [(1, 2)] gives two different successors. *)
Lemma step_needs_determinism :
  exists o1 o2, run_rel decide_either car0 o1 /\ run_rel decide_either car0 o2 /\
                o1 <> o2.
Proof.
  destruct (observe_ok car0 (corridor_aligned _ _ _ corridor_track3)) as [params Hp].
  exists (resume car0 params (Ok [0; 0])), (resume car0 params (Ok [1; 2])).
  split; [|split].
  - apply run_rel_decide; [assumption | left; reflexivity].
  - apply run_rel_decide; [assumption | right; reflexivity].
  - unfold resume, car0, set_accl.
    cbn [track pos accl vel last_vel last_pos pos_history vel_history accl_history end_].
    rewrite !(update_corridor _ _ _ _ _ _ _ _ _ _ _ _ corridor_track3).
    rewrite clamp_vel_id by (cbn [fst snd]; lra).
    unfold vadd. cbn [fst snd]. rcmp. cbn [andb np.iadd2 fst snd app].
    intros H. injection H. intros. lra.
Qed.

(** ** Scoring *)

Lemma fold_max_spec l : forall x,
  x <= fold_left Rmax l x /\
  (forall y, In y l -> y <= fold_left Rmax l x) /\
  (fold_left Rmax l x = x \/ In (fold_left Rmax l x) l).
Proof.
  induction l as [|a l IH]; intros x; simpl.
  - repeat split; [lra | contradiction | left; reflexivity].
  - destruct (IH (Rmax x a)) as (H1 & H2 & H3).
    pose proof (Rmax_l x a). pose proof (Rmax_r x a).
    repeat split.
    + lra.
    + intros y [<-|Hy]; [lra | auto].
    + destruct H3 as [H3|H3]; [|right; right; assumption].
      rewrite H3. unfold Rmax. destruct (Rle_dec x a); [right; left|left]; reflexivity.
Qed.

Lemma argmax_from_spec a : forall i best bi,
  (np.argmax_from i best bi a = bi /\ forall x, In x a -> x <= best) \/
  (exists t, (t < length a)%nat /\
             np.argmax_from i best bi a = (i + t)%nat /\
             best < nth t a 0 /\
             (forall s, (s < t)%nat -> nth s a 0 < nth t a 0) /\
             forall x, In x a -> x <= nth t a 0).
Proof.
  induction a as [|x a IH]; intros i best bi; cbn [np.argmax_from].
  - left. split; [reflexivity | contradiction].
  - destruct (Rlt_dec best x) as [Hlt|Hge].
    + rewrite Rltb_true by assumption.
      destruct (IH (S i) x i) as [[Hr Hall]|(t & Ht & Hr & Hb & Hfirst & Hall)].
      * right. exists 0%nat. cbn [nth length]. repeat split.
        -- lia.
        -- rewrite Hr. lia.
        -- assumption.
        -- intros s Hs. lia.
        -- intros y [<-|Hy]; [lra | auto].
      * right. exists (S t). cbn [nth length]. repeat split.
        -- lia.
        -- rewrite Hr. lia.
        -- lra.
        -- intros [|s] Hs; cbn [nth]; [assumption | apply Hfirst; lia].
        -- intros y [<-|Hy]; [lra | auto].
    + rewrite Rltb_false by assumption.
      destruct (IH (S i) best bi) as [[Hr Hall]|(t & Ht & Hr & Hb & Hfirst & Hall)].
      * left. split; [assumption|]. intros y [<-|Hy]; [lra | auto].
      * right. exists (S t). cbn [nth length]. repeat split.
        -- lia.
        -- rewrite Hr. lia.
        -- assumption.
        -- intros [|s] Hs; cbn [nth]; [lra | apply Hfirst; lia].
        -- intros y [<-|Hy]; [lra | auto].
Qed.

Lemma argmax_spec a :
  a <> [] ->
  exists k, np.argmax a = Ok k /\ (k < length a)%nat /\
            np.max a = Ok (nth k a 0) /\
            (forall j, (j < length a)%nat -> nth j a 0 <= nth k a 0) /\
            (forall j, (j < k)%nat -> nth j a 0 < nth k a 0).
Proof.
  destruct a as [|x a]; [contradiction|]. intros _.
  cbn [np.argmax np.max].
  destruct (fold_max_spec a x) as (Hm1 & Hm2 & Hm3).
  destruct (argmax_from_spec a 1 x 0) as [[Hr Hall]|(t & Ht & Hr & Hb & Hfirst & Hall)].
  - exists 0%nat. rewrite Hr. cbn [nth length]. repeat split.
    + lia.
    + f_equal. destruct Hm3 as [H|H]; [assumption|]. apply Hall in H. lra.
    + intros [|j] Hj; [lra|]. cbn [nth]. apply Hall. apply nth_In. simpl in Hj. lia.
    + intros j Hj. lia.
  - exists (S t). rewrite Hr. cbn [nth length]. repeat split.
    + lia.
    + f_equal. apply Rle_antisym.
      * destruct Hm3 as [->|H]; [lra | auto].
      * apply Hm2. apply nth_In. assumption.
    + intros [|j] Hj; [lra|]. cbn [nth]. apply Hall. apply nth_In. simpl in Hj. lia.
    + intros [|j] Hj; cbn [nth]; [assumption | apply Hfirst; lia].
Qed.

Lemma utility_eq c :
  utility c =
  match pos_history c with
  | [] => Raise IndexError
  | _ :: _ =>
      match np.max (map fst (pos_history c)) with
      | Ok m =>
          if m >=? end_ c - 2
          then match np.argmax (map fst (pos_history c)) with
               | Ok i => Ok ((m, Z.of_nat i), c)
               | Raise e => Raise e
               end
          else Ok ((m, (-1)%Z), c)
      | Raise e => Raise e
      end
  end.
Proof.
  unfold utility. erewrite bind_ok by reflexivity.
  destruct (pos_history c) as [|p h]; [reflexivity|].
  erewrite bind_ok by reflexivity.
  unfold bind at 1, lift at 1.
  destruct (np.max _) as [m|e]; [|reflexivity].
  erewrite bind_ok by reflexivity. cbv beta.
  destruct (_ <=? _); [|reflexivity].
  unfold bind, lift, ret. destruct (np.argmax _); reflexivity.
Qed.

(** C5.  On a history that is not empty [utility] returns a pair whose
    first component is the largest forward coordinate recorded; where
    several steps share it, [k] below is the first of them.  The second
    component is [k] if that maximum is at least [end - 2], and the sentinel
    [-1] if it is strictly less.  The car is left as it was. *)
Theorem utility_scores (c : Car) :
  pos_history c <> [] ->
  exists m k,
    (k < length (pos_history c))%nat /\
    fst (nth k (pos_history c) (0, 0)) = m /\
    (forall j, (j < length (pos_history c))%nat ->
               fst (nth j (pos_history c) (0, 0)) <= m) /\
    (forall j, (j < k)%nat -> fst (nth j (pos_history c) (0, 0)) < m) /\
    (end_ c - 2 <= m -> utility c = Ok ((m, Z.of_nat k), c)) /\
    (m < end_ c - 2 -> utility c = Ok ((m, (-1)%Z), c)).
Proof.
  intros Hne.
  assert (Hx : map fst (pos_history c) <> []).
  { destruct (pos_history c); [contradiction | discriminate]. }
  destruct (argmax_spec _ Hx) as (k & Hk & Hlt & Hmax & Hub & Hfirst).
  rewrite length_map in Hlt, Hub.
  assert (Hnth : forall j, nth j (map fst (pos_history c)) 0
                           = fst (nth j (pos_history c) (0, 0))).
  { intros j. change 0 with (fst (0, 0)) at 1. apply map_nth. }
  exists (nth k (map fst (pos_history c)) 0), k.
  split; [assumption|]. split; [symmetry; apply Hnth|].
  split; [intros j Hj; rewrite <- Hnth; auto|].
  split; [intros j Hj; rewrite <- Hnth; auto|].
  rewrite utility_eq.
  destruct (pos_history c) as [|p0 h] eqn:Eh; [contradiction|].
  cbv iota. rewrite <- Eh in *. rewrite Hmax, Hk.
  split; intros H.
  - now rewrite Rleb_true by assumption.
  - rewrite Rleb_false by lra. reflexivity.
Qed.

Lemma utility_scores_witness :
  exists m k,
    (k < length (pos_history trip5))%nat /\
    fst (nth k (pos_history trip5) (0, 0)) = m /\
    (forall j, (j < length (pos_history trip5))%nat ->
               fst (nth j (pos_history trip5) (0, 0)) <= m) /\
    (forall j, (j < k)%nat -> fst (nth j (pos_history trip5) (0, 0)) < m) /\
    (end_ trip5 - 2 <= m -> utility trip5 = Ok ((m, Z.of_nat k), trip5)) /\
    (m < end_ trip5 - 2 -> utility trip5 = Ok ((m, (-1)%Z), trip5)).
Proof.
  apply (utility_scores trip5). discriminate.
Defined.

(** Decide the maxima of a goal between concrete numbers. *)
Ltac rmax :=
  repeat match goal with
    | |- context [Rmax ?a ?b] =>
        first [ rewrite (Rmax_right a b) by lra | rewrite (Rmax_left a b) by lra ]
    end.

(** Two scores: a car that has reached 19 on a track that ends at 20 at
    step 1 and stayed there for step 2 scores [(19, 1)], the first of the two
    steps; the car of the five steps, never beyond 3, scores [(3, -1)]. *)
Lemma utility_first_of_ties : utility car19 = Ok ((19, 1%Z), car19).
Proof.
  rewrite utility_eq. unfold car19 at 1 2 3 4.
  cbn [pos_history end_ map fst np.max fold_left np.argmax np.argmax_from].
  rmax.
  rcmp. reflexivity.
Qed.

Lemma utility_did_not_finish : utility trip5 = Ok ((3, (-1)%Z), trip5).
Proof.
  rewrite utility_eq. unfold trip5 at 1 2 3 4.
  cbn [pos_history end_ map fst np.max fold_left np.argmax np.argmax_from].
  rmax.
  rcmp. reflexivity.
Qed.

(** * Further properties of the code *)

(** ** [normalize] and the rotations *)

Lemma norm_eq_0 v : np.norm v = 0 <-> v = (0, 0).
Proof.
  destruct v as [a b]. unfold np.norm. cbn [fst snd]. split.
  - intros H. apply sqrt_eq_0 in H; [|apply sumsq_nonneg].
    assert (a = 0) by nra. assert (b = 0) by nra. subst. reflexivity.
  - intros H. injection H as -> ->.
    replace (0 * 0 + 0 * 0) with 0 by ring. apply sqrt_0.
Qed.

Lemma norm_nonneg v : 0 <= np.norm v.
Proof. apply sqrt_pos. Qed.

(** X1.  [normalize] turns every vector other than the zero vector into a
    vector of length one. *)
Theorem normalize_unit_length (v : vec2) :
  v <> (0, 0) -> np.norm (normalize v) = 1.
Proof.
  intros Hv. unfold np.norm at 1.
  rewrite normalize_unit; [apply sqrt_1|].
  intros H. apply norm_eq_0 in H. contradiction.
Qed.

Lemma normalize_unit_length_witness : np.norm (normalize (3, 4)) = 1.
Proof.
  apply (normalize_unit_length (3, 4)).
  intros H. injection H. lra.
Defined.

(** X2.  [normalize] is idempotent: normalising a second time changes
    nothing, the zero vector included. *)
Theorem normalize_idempotent (v : vec2) :
  normalize (normalize v) = normalize v.
Proof.
  destruct (Req_dec_T (np.norm v) 0) as [Hz|Hnz].
  - unfold normalize at 2. rewrite Reqb_true by assumption.
    unfold normalize. now rewrite Reqb_true by assumption.
  - assert (H1 : np.norm (normalize v) = 1).
    { unfold np.norm. rewrite normalize_unit by assumption. apply sqrt_1. }
    unfold normalize at 1. rewrite H1, Reqb_false by lra.
    destruct (normalize v) as [a b]. cbn [fst snd]. f_equal; field.
Qed.

Lemma norm_stretch k v : 0 < k -> np.norm (stretch k v) = k * np.norm v.
Proof.
  intros Hk. unfold np.norm, stretch. cbn [fst snd].
  replace (k * fst v * (k * fst v) + k * snd v * (k * snd v))
    with ((k * k) * (fst v * fst v + snd v * snd v)) by ring.
  rewrite sqrt_mult by (try apply sumsq_nonneg; nra).
  rewrite sqrt_square by lra. reflexivity.
Qed.

Lemma normalize_stretch k v : 0 < k -> normalize (stretch k v) = normalize v.
Proof.
  intros Hk. unfold normalize. rewrite norm_stretch by assumption.
  destruct (Req_dec_T (np.norm v) 0) as [Hz|Hnz].
  - rewrite Hz, Rmult_0_r, Reqb_true by reflexivity.
    apply norm_eq_0 in Hz. subst v. unfold stretch. cbn [fst snd].
    f_equal; ring.
  - rewrite (Reqb_false (np.norm v)) by assumption.
    rewrite Reqb_false by (apply Rmult_integral_contrapositive_currified; lra).
    unfold stretch. cbn [fst snd]. f_equal; field; split; lra.
Qed.

Lemma rot_matrix_stretch k v : 0 < k -> rot_matrix (stretch k v) = rot_matrix v.
Proof.
  intros Hk. unfold rot_matrix.
  rewrite normalize_stretch, norm_stretch by assumption.
  destruct (Req_dec_T (np.norm v) 0) as [Hz|Hnz].
  - rewrite Hz, Rmult_0_r. reflexivity.
  - rewrite (Reqb_false (np.norm v)) by assumption.
    rewrite Reqb_false by (apply Rmult_integral_contrapositive_currified; lra).
    reflexivity.
Qed.

(** X4.  Turning ray directions with [get_rot_mat] keeps their lengths,
    and turning by one angle and then by another is turning by the sum. *)
Theorem get_rot_mat_turns (a : list vec2) (t1 t2 : R) :
  map np.norm (np.dot a (np.T (get_rot_mat t1))) = map np.norm a /\
  np.dot (np.dot a (np.T (get_rot_mat t1))) (np.T (get_rot_mat t2))
  = np.dot a (np.T (get_rot_mat (t1 + t2))).
Proof.
  unfold np.dot, get_rot_mat, np.T. cbn [fst snd]. split.
  - rewrite map_map. apply map_ext. intros [x y]. unfold np.norm. cbn [fst snd].
    f_equal. pose proof (sin2_cos2 t1) as H. unfold Rsqr in H. nra.
  - rewrite map_map. apply map_ext. intros [x y]. cbn [fst snd].
    rewrite cos_plus, sin_plus. f_equal; ring.
Qed.

(** X5.  The rotation that [get_surrounding] builds from a velocity of
    heading [th] and any positive speed is the matrix of [get_rot_mat] at
    [th]. *)
Theorem rot_matrix_is_get_rot_mat (r th : R) :
  0 < r -> rot_matrix (r * cos th, r * sin th) = get_rot_mat th.
Proof.
  intros Hr.
  change (r * cos th, r * sin th) with (stretch r (cos th, sin th)).
  rewrite rot_matrix_stretch by assumption.
  assert (Hn : np.norm (cos th, sin th) = 1).
  { unfold np.norm. cbn [fst snd].
    pose proof (sin2_cos2 th) as H. unfold Rsqr in H.
    replace (cos th * cos th + sin th * sin th) with 1 by lra. apply sqrt_1. }
  unfold rot_matrix, normalize. rewrite Hn, Reqb_false by lra.
  unfold np.T, get_rot_mat. cbn [fst snd negb].
  apply f_equal2; apply f_equal2; field.
Qed.

Lemma rot_matrix_is_get_rot_mat_witness :
  rot_matrix (2 * cos 1, 2 * sin 1) = get_rot_mat 1.
Proof. apply (rot_matrix_is_get_rot_mat 2 1). lra. Defined.

(** X6.  At rest, and when heading straight along the track at any speed,
    the rays are the configured directions, unrotated. *)
Theorem rays_unrotated (s : R) :
  0 < s -> rotated_eyes (0, 0) = eyes /\ rotated_eyes (s, 0) = eyes.
Proof.
  intros Hs. split.
  - unfold rotated_eyes. rewrite rot_matrix_zero.
    unfold np.dot, np.T, np.eye2, eyes. cbn [map fst snd]. same.
  - unfold rotated_eyes.
    replace (s, 0) with (stretch s (1, 0))
      by (unfold stretch; cbn [fst snd]; f_equal; ring).
    rewrite rot_matrix_stretch by assumption.
    assert (Hn : np.norm (1, 0) = 1).
    { unfold np.norm. cbn [fst snd].
      replace (1 * 1 + 0 * 0) with 1 by ring. apply sqrt_1. }
    unfold rot_matrix, normalize. rewrite Hn, Reqb_false by lra.
    unfold np.dot, np.T, eyes. cbn [map fst snd negb]. same.
Qed.

Lemma rays_unrotated_witness :
  rotated_eyes (0, 0) = eyes /\ rotated_eyes (5, 0) = eyes.
Proof. apply (rays_unrotated 5). lra. Defined.

(** ** The corridor between the samples *)

Lemma search_from_stop key arr : forall i,
  (i <= np.search_from key i arr <= i + length arr)%nat /\
  (forall t, (i <= t < np.search_from key i arr)%nat -> nth (t - i) arr 0 <= key) /\
  ((np.search_from key i arr < i + length arr)%nat ->
   key < nth (np.search_from key i arr - i) arr 0).
Proof.
  induction arr as [|a arr IH]; intros i; cbn [np.search_from length].
  - repeat split; intros; lia.
  - destruct (Rle_dec a key) as [Hle|Hgt].
    + rewrite Rleb_true by assumption.
      destruct (IH (S i)) as (Hb & Hvis & Hstop). repeat split; try lia.
      * intros t Ht. destruct (Nat.eq_dec t i) as [->|Hne].
        -- rewrite Nat.sub_diag. exact Hle.
        -- replace (t - i)%nat with (S (t - S i)) by lia. cbn [nth].
           apply Hvis. lia.
      * intros Hlt.
        replace (np.search_from key (S i) arr - i)%nat
          with (S (np.search_from key (S i) arr - S i)) by lia.
        cbn [nth]. apply Hstop. lia.
    + rewrite Rleb_false by assumption. repeat split; try lia.
      intros _. rewrite Nat.sub_diag. cbn [nth]. lra.
Qed.

(** Every value of the interpolation lies on the segment between two
    samples, at a place that depends on [x] and [xp] only. *)
Lemma interp_cases x xp :
  xp <> [] ->
  exists j j' t,
    (j < length xp)%nat /\ (j' < length xp)%nat /\ 0 <= t < 1 /\
    forall fp, length fp = length xp ->
               np.interp x xp fp = Ok (nth j fp 0 + t * (nth j' fp 0 - nth j fp 0)).
Proof.
  intros Hne. destruct xp as [|x0 xp'] eqn:E; [contradiction|].
  rewrite <- E in *.
  assert (HN : (0 < length xp)%nat) by (rewrite E; simpl; lia).
  assert (Hx0 : nth 0 xp 0 = x0) by (rewrite E; reflexivity).
  assert (Htl : length (tl xp) = (length xp - 1)%nat) by (rewrite E; simpl; lia).
  assert (Hnth_tl : forall k, nth k (tl xp) 0 = nth (S k) xp 0)
    by (intros k; rewrite E; reflexivity).
  assert (Hunfold : forall fp,
             np.interp x xp fp =
             if negb (length fp =? length xp)%nat then Raise ValueError
             else if x >? last xp 0 then Ok (last fp 0)
             else if x <? x0 then Ok (nth 0 fp 0)
             else
               let j := np.binary_search x xp in
               if (j =? length xp - 1)%nat then Ok (nth j fp 0)
               else if nth j xp 0 =? x then Ok (nth j fp 0)
               else
                 let slope := (nth (S j) fp 0 - nth j fp 0)
                              / (nth (S j) xp 0 - nth j xp 0) in
                 Ok (slope * (x - nth j xp 0) + nth j fp 0)).
  { intros fp. rewrite E. reflexivity. }
  destruct (Rlt_dec (last xp 0) x) as [Hlast|Hlast].
  { exists (length xp - 1)%nat, (length xp - 1)%nat, 0.
    repeat split; try lia; try lra.
    intros fp Hfp. rewrite Hunfold, Hfp, Nat.eqb_refl. cbn [negb].
    rewrite Rltb_true by assumption.
    rewrite last_nth, Hfp. f_equal. ring. }
  destruct (Rlt_dec x x0) as [Hfirst|Hfirst].
  { exists 0%nat, 0%nat, 0. repeat split; try lia; try lra.
    intros fp Hfp. rewrite Hunfold, Hfp, Nat.eqb_refl. cbn [negb].
    rewrite Rltb_false by assumption. rewrite Rltb_true by assumption.
    f_equal. ring. }
  set (j := np.binary_search x xp).
  destruct (search_from_stop x (tl xp) 1) as (Hb & Hvis & Hstop).
  assert (Hj : (j <= length xp - 1)%nat) by (unfold j, np.binary_search; lia).
  destruct (Nat.eq_dec j (length xp - 1)) as [Hend|Hend].
  { exists j, j, 0. repeat split; try lia; try lra.
    intros fp Hfp. rewrite Hunfold, Hfp, Nat.eqb_refl. cbn [negb].
    rewrite Rltb_false by assumption. rewrite Rltb_false by assumption.
    cbv zeta. fold j. rewrite (proj2 (Nat.eqb_eq _ _) Hend).
    f_equal. ring. }
  destruct (Req_dec_T (nth j xp 0) x) as [Hex|Hex].
  { exists j, j, 0. repeat split; try lia; try lra.
    intros fp Hfp. rewrite Hunfold, Hfp, Nat.eqb_refl. cbn [negb].
    rewrite Rltb_false by assumption. rewrite Rltb_false by assumption.
    cbv zeta. fold j. rewrite (proj2 (Nat.eqb_neq _ _) Hend).
    rewrite Reqb_true by assumption. f_equal. ring. }
  assert (Hlo : nth j xp 0 <= x).
  { destruct (Nat.eq_dec j 0) as [->|Hj0]; [rewrite Hx0; lra|].
    specialize (Hvis j). unfold j, np.binary_search in *.
    replace (nth (np.search_from x 1 (tl xp) - 1) xp 0)
      with (nth (np.search_from x 1 (tl xp) - 1 - 1) (tl xp) 0).
    - apply Hvis. lia.
    - rewrite Hnth_tl. f_equal. lia. }
  assert (Hhi : x < nth (S j) xp 0).
  { unfold j, np.binary_search in *. rewrite <- Hnth_tl. apply Hstop. lia. }
  exists j, (S j), ((x - nth j xp 0) / (nth (S j) xp 0 - nth j xp 0)).
  repeat split; try lia.
  - apply Rmult_le_pos; [lra|]. left. apply Rinv_0_lt_compat. lra.
  - apply (Rmult_lt_reg_r (nth (S j) xp 0 - nth j xp 0)); [lra|].
    unfold Rdiv. rewrite Rmult_assoc, Rinv_l by lra. lra.
  - intros fp Hfp. rewrite Hunfold, Hfp, Nat.eqb_refl. cbn [negb].
    rewrite Rltb_false by assumption. rewrite Rltb_false by assumption.
    cbv zeta. fold j. rewrite (proj2 (Nat.eqb_neq _ _) Hend).
    rewrite Reqb_false by assumption. f_equal. field. lra.
Qed.

Lemma interp_ok x xp fp :
  xp <> [] -> length fp = length xp -> exists y, np.interp x xp fp = Ok y.
Proof.
  intros Hne Hfp. destruct (interp_cases x xp Hne) as (j & j' & t & _ & _ & _ & H).
  rewrite (H fp Hfp). eauto.
Qed.

(** X7.  On a track whose sample positions are sorted (they never fall
    from one sample to a later one) and whose lower boundary lies below the
    upper one at every sample, the corridor that [track_at] interpolates is
    open at every [x], between the samples and beyond both ends: the lookup
    returns, and its lower bound lies strictly below its upper bound. *)
Theorem track_at_corridor_open (c : Car) (x : R) :
  xs (track c) <> [] ->
  nondecreasing (xs (track c)) ->
  aligned (track c) ->
  (forall k, (k < length (xs (track c)))%nat ->
             nth k (lower (track c)) 0 < nth k (upper (track c)) 0) ->
  exists lo hi, track_at x c = Ok ((lo, hi), c) /\ lo < hi.
Proof.
  intros Hne _ [Hlo Hhi] Hopen. rewrite track_at_eq.
  destruct (interp_cases x (xs (track c)) Hne) as (j & j' & t & Hj & Hj' & Ht & H).
  rewrite (H _ Hlo), (H _ Hhi). cbn [bindR lift].
  eexists. eexists. split; [reflexivity|].
  pose proof (Hopen j Hj). pose proof (Hopen j' Hj'). nra.
Qed.

Lemma track_at_corridor_open_witness :
  exists lo hi, track_at 7 car_bent = Ok ((lo, hi), car_bent) /\ lo < hi.
Proof.
  apply (track_at_corridor_open car_bent 7).
  - discriminate.
  - intros i j Hij. unfold car_bent, track_bent in *.
    cbn [track xs length] in *.
    destruct i as [|[|[|i]]]; destruct j as [|[|[|j]]]; cbn [nth]; try lra; lia.
  - split; reflexivity.
  - intros k Hk. unfold car_bent, track_bent in *. cbn [track xs lower upper length] in *.
    destruct k as [|[|[|k]]]; cbn [nth]; try lra. lia.
Defined.

(** ** The default decision function *)

(** X8.  Where the divisor [1 + dd] of its quotient is not zero ([dd] is
    the second parameter), [default_accl_function] returns exactly when it
    is given at least four parameters, and then an acceleration of two
    components whose forward component is 0.1; with fewer it raises
    [ValueError]. *)
Theorem default_accl_shape (params : list R) :
  1 + nth 1 params 0 <> 0 ->
  match default_accl_function params with
  | Ok a => (4 <= length params)%nat /\ length a = 2%nat /\ nth 0 a 0 = 1 / 10
  | Raise e => e = ValueError /\ (length params < 4)%nat
  end.
Proof.
  intros _. unfold default_accl_function.
  destruct params as [|a [|b [|c [|d rest]]]]; cbn [firstn length];
    try (split; [reflexivity | lia]).
  repeat split. lia.
Qed.

Lemma default_accl_shape_witness :
  1 + nth 1 [300; 250; 400; 500] 0 <> 0 /\
  match default_accl_function [300; 250; 400; 500] with
  | Ok a => (4 <= length [300; 250; 400; 500])%nat /\
            length a = 2%nat /\ nth 0 a 0 = 1 / 10
  | Raise e => e = ValueError /\ (length [300; 250; 400; 500] < 4)%nat
  end.
Proof.
  assert (H : 1 + nth 1 [300; 250; 400; 500] 0 <> 0) by (cbn [nth]; lra).
  split; [exact H|].
  exact (default_accl_shape [300; 250; 400; 500] H).
Defined.

(** X9.  When the two proximity tests of the default decision agree (both
    sides closer than 200, or neither) and the reading below is not
    negative, the lateral acceleration is [(du - dd) / (1 + dd)]: positive
    exactly when there is more room above than below, zero exactly when
    the room is the same. *)
Theorem default_accl_steers (du dd d2 d3 : R) (rest : list R) :
  0 <= dd ->
  (du <? 200) || (d2 <? 200) = (dd <? 200) || (d3 <? 200) ->
  exists a,
    default_accl_function (du :: dd :: d2 :: d3 :: rest) = Ok [1 / 10; a] /\
    a = (du - dd) / (1 + dd) /\ (0 < a <-> dd < du) /\ (a = 0 <-> du = dd).
Proof.
  intros Hdd Hflags. unfold default_accl_function. cbn [firstn nth].
  rewrite Hflags.
  assert (Hbase : (1 + du) / (1 + dd) - 1 = (du - dd) / (1 + dd)) by (field; lra).
  assert (Hinv : 0 < / (1 + dd)) by (apply Rinv_0_lt_compat; lra).
  exists ((du - dd) / (1 + dd)). split; [|split; [reflexivity|]].
  - destruct ((dd <? 200) || (d3 <? 200)); same.
  - unfold Rdiv. split; split; intros H; nra.
Qed.

Lemma default_accl_steers_witness :
  exists a,
    default_accl_function [300; 250; 400; 500] = Ok [1 / 10; a] /\
    a = (300 - 250) / (1 + 250) /\ (0 < a <-> 250 < 300) /\ (a = 0 <-> 300 = 250).
Proof.
  apply (default_accl_steers 300 250 400 500 []); [lra|].
  now rewrite !Rltb_false by lra.
Defined.

Lemma default_accl_returns params :
  (4 <= length params)%nat ->
  exists a0 a1, default_accl_function params = Ok [a0; a1].
Proof.
  intros H. unfold default_accl_function.
  destruct params as [|a [|b [|c [|d rest]]]]; cbn [length] in H; try lia.
  cbn [firstn]. eauto.
Qed.

Lemma observe_shape c :
  aligned (track c) ->
  exists d1 d2,
    length d1 = 4%nat /\ length d2 = 4%nat /\
    observe c = Ok (d1 ++ [fst (vel c); snd (vel c)] ++ d2
                       ++ [fst (last_vel c); snd (last_vel c)]).
Proof.
  intros Hal. unfold observe.
  destruct (sensors_ok (track c) (pos c) (vel c) Hal) as (d1 & -> & H1 & _).
  destruct (sensors_ok (track c) (last_pos c) (last_vel c) Hal) as (d2 & -> & H2 & _).
  exists d1, d2. repeat split; assumption.
Qed.

Lemma legal_at_ok tr e p :
  xs tr <> [] -> aligned tr -> exists b, legal_at tr e p = Ok b.
Proof.
  intros Hne [Hlo Hhi]. unfold legal_at.
  destruct (interp_ok (fst p) (xs tr) (lower tr) Hne Hlo) as [lo ->].
  destruct (interp_ok (fst p) (xs tr) (upper tr) Hne Hhi) as [hi ->].
  simpl. eauto.
Qed.

(** X10.  On a track that is aligned and not empty a step under the
    default decision function never raises: it hands the function twelve
    parameters, stores an acceleration of two components, and leaves a car
    from which any number of further steps succeed as well. *)
Theorem default_policy_never_raises (c : Car) :
  xs (track c) <> [] ->
  aligned (track c) ->
  (exists params c',
      run default_accl_function c = Ok (params, c') /\
      length params = 12%nat /\ length (accl c') = 2%nat) /\
  (forall n, exists cn, steps default_accl_function n c = Ok cn).
Proof.
  intros Hne Hal.
  assert (Hstep : forall c0, xs (track c0) <> [] -> aligned (track c0) ->
            exists params c', run default_accl_function c0 = Ok (params, c') /\
                              length params = 12%nat /\ length (accl c') = 2%nat /\
                              track c' = track c0).
  { intros c0 Hne0 Hal0.
    destruct (observe_shape c0 Hal0) as (d1 & d2 & H1 & H2 & Ho).
    rewrite run_eq, Ho.
    set (params := d1 ++ [fst (vel c0); snd (vel c0)] ++ d2
                      ++ [fst (last_vel c0); snd (last_vel c0)]).
    assert (Hlen : length params = 12%nat).
    { unfold params. rewrite !length_app, H1, H2. reflexivity. }
    destruct (default_accl_returns params) as (a0 & a1 & ->); [lia|].
    set (a := [a0; a1]). assert (Ha : length a = 2%nat) by reflexivity.
    unfold resume. rewrite update_eq.
    change (track (set_accl a c0)) with (track c0).
    change (end_ (set_accl a c0)) with (end_ c0).
    change (accl (set_accl a c0)) with a.
    destruct (legal_at_ok (track c0) (end_ c0) (pos (tentative (set_accl a c0)))
                Hne0 Hal0) as [[|] ->].
    - unfold a. cbn [np.iadd2]. eexists. eexists. repeat split; try reflexivity. assumption.
    - eexists. eexists. repeat split; try reflexivity. assumption. }
  split.
  - destruct (Hstep c Hne Hal) as (params & c' & H & Hl & Ha & _). eauto.
  - intros n. revert c Hne Hal. induction n as [|n IH]; intros c Hne Hal.
    + exists c. reflexivity.
    + destruct (Hstep c Hne Hal) as (params & c' & H & _ & _ & Ht).
      rewrite steps_S, H. apply IH; rewrite Ht; assumption.
Qed.

Lemma default_policy_never_raises_witness :
  (exists params c',
      run default_accl_function car_bent = Ok (params, c') /\
      length params = 12%nat /\ length (accl c') = 2%nat) /\
  (forall n, exists cn, steps default_accl_function n car_bent = Ok cn).
Proof.
  apply (default_policy_never_raises car_bent).
  - discriminate.
  - split; reflexivity.
Defined.

(** ** What a step keeps *)

Lemma run_frame f c params c' :
  run f c = Ok (params, c') ->
  track c' = track c /\ end_ c' = end_ c /\
  last_pos c' = pos c /\ last_vel c' = vel c /\
  pos_history c' = pos_history c ++ [pos c'] /\
  vel_history c' = vel_history c ++ [vel c'] /\
  accl_history c' = accl_history c ++ [accl c'].
Proof.
  intros H. apply run_cases in H. destruct H as (a & _ & _ & Hu).
  apply update_cases in Hu.
  destruct Hu as (Ht & He & Hp & Hv & Ha & Hlp & Hlv & _).
  repeat split; assumption.
Qed.

Lemma run_displacement f c params c' :
  run f c = Ok (params, c') ->
  fst (pos c) <= fst (pos c') <= fst (pos c) + 25 /\
  snd (pos c) - 25 <= snd (pos c') <= snd (pos c) + 25.
Proof.
  intros H. apply run_outcome in H.
  destruct H as (_ & _ & _ & [(_ & Hp & _)|(_ & Hp & _)]); rewrite Hp.
  - pose proof (clamp_vel_bounds (vel c)) as [H0 H1].
    unfold max_vel in *. cbn [fst snd] in *.
    unfold tentative, set_pos, vadd. cbn [pos fst snd]. lra.
  - lra.
Qed.

(** X11.  A step never moves the car backwards and never farther than the
    speed limit: the forward coordinate grows by at most 25 and never
    shrinks, the lateral coordinate changes by at most 25, whatever the
    velocity and the decision were. *)
Theorem step_displacement_bounded (f : list R -> result (list R)) (c c' : Car)
  (params : list R) :
  run f c = Ok (params, c') ->
  fst (pos c) <= fst (pos c') <= fst (pos c) + 25 /\
  snd (pos c) - 25 <= snd (pos c') <= snd (pos c) + 25.
Proof.
  intros H. apply run_outcome in H.
  destruct H as (_ & _ & _ & [(_ & Hp & _)|(_ & Hp & _)]); rewrite Hp.
  - pose proof (clamp_vel_bounds (vel c)) as [H0 H1].
    unfold max_vel in *. cbn [fst snd] in *.
    unfold tentative, set_pos, vadd. cbn [pos fst snd]. lra.
  - lra.
Qed.

Lemma step_displacement_bounded_witness :
  fst (pos trip4) <= fst (pos trip5) <= fst (pos trip4) + 25 /\
  snd (pos trip4) - 25 <= snd (pos trip5) <= snd (pos trip4) + 25.
Proof.
  destruct (proj1 (steps_1 _ _ _) trip_step5) as [params H].
  exact (step_displacement_bounded decide12 trip4 trip5 params H).
Defined.

Lemma steps_frame f n : forall c0 c,
  steps f n c0 = Ok c ->
  track c = track c0 /\ end_ c = end_ c0 /\
  length (pos_history c) = (n + length (pos_history c0))%nat /\
  length (vel_history c) = (n + length (vel_history c0))%nat /\
  length (accl_history c) = (n + length (accl_history c0))%nat /\
  ((0 < n)%nat ->
   last (pos_history c) (0, 0) = pos c /\
   last (vel_history c) (0, 0) = vel c /\
   last (accl_history c) [] = accl c).
Proof.
  induction n as [|n IH]; intros c0 c H.
  - simpl in H. injection H as <-. repeat split; lia.
  - rewrite steps_S in H.
    destruct (run f c0) as [[params c1]|e] eqn:E; [|discriminate].
    apply run_frame in E.
    destruct E as (Ht & He & _ & _ & Hp & Hv & Ha).
    destruct (IH c1 c H) as (Ht' & He' & Hlp & Hlv & Hla & Hlast).
    rewrite Hp, Hv, Ha, !length_app in *. cbn [length] in *.
    repeat split; try congruence; try lia.
    + destruct n as [|n]; [|apply Hlast; lia].
      simpl in H. injection H as <-. rewrite Hp. apply last_last.
    + destruct n as [|n]; [|apply Hlast; lia].
      simpl in H. injection H as <-. rewrite Hv. apply last_last.
    + destruct n as [|n]; [|apply Hlast; lia].
      simpl in H. injection H as <-. rewrite Ha. apply last_last.
Qed.

(** X12.  Every step appends one entry to each of the three histories
    and touches neither the track nor the end: after [n] steps each history
    is [n] entries longer, and once a step has been made the last entries
    are the current position, velocity and acceleration. *)
Theorem histories_grow_together (f : list R -> result (list R)) (n : nat)
  (c0 c : Car) :
  steps f n c0 = Ok c ->
  track c = track c0 /\ end_ c = end_ c0 /\
  length (pos_history c) = (n + length (pos_history c0))%nat /\
  length (vel_history c) = (n + length (vel_history c0))%nat /\
  length (accl_history c) = (n + length (accl_history c0))%nat /\
  ((0 < n)%nat ->
   last (pos_history c) (0, 0) = pos c /\
   last (vel_history c) (0, 0) = vel c /\
   last (accl_history c) [] = accl c).
Proof.
  revert c0 c. induction n as [|n IH]; intros c0 c H.
  - simpl in H. injection H as <-. repeat split; lia.
  - rewrite steps_S in H.
    destruct (run f c0) as [[params c1]|e] eqn:E; [|discriminate].
    apply run_frame in E.
    destruct E as (Ht & He & _ & _ & Hp & Hv & Ha).
    destruct (IH c1 c H) as (Ht' & He' & Hlp & Hlv & Hla & Hlast).
    rewrite Hp, Hv, Ha, !length_app in *. cbn [length] in *.
    repeat split; try congruence; try lia.
    + destruct n as [|n]; [|apply Hlast; lia].
      simpl in H. injection H as <-. rewrite Hp. apply last_last.
    + destruct n as [|n]; [|apply Hlast; lia].
      simpl in H. injection H as <-. rewrite Hv. apply last_last.
    + destruct n as [|n]; [|apply Hlast; lia].
      simpl in H. injection H as <-. rewrite Ha. apply last_last.
Qed.

Lemma histories_grow_together_witness :
  track trip3 = track car0 /\ end_ trip3 = end_ car0 /\
  length (pos_history trip3) = (3 + length (pos_history car0))%nat /\
  length (vel_history trip3) = (3 + length (vel_history car0))%nat /\
  length (accl_history trip3) = (3 + length (accl_history car0))%nat /\
  ((0 < 3)%nat ->
   last (pos_history trip3) (0, 0) = pos trip3 /\
   last (vel_history trip3) (0, 0) = vel trip3 /\
   last (accl_history trip3) [] = accl trip3).
Proof. exact (histories_grow_together decide12 3 car0 trip3 trip_steps3). Defined.

(** X13.  The decision of a step does not reach the position of that
    step: two decision functions, run from one state, see the same
    parameters and leave the car at the same position with the same
    snapshot of the previous position and velocity. *)
Theorem position_ignores_decision (f g : list R -> result (list R)) (c c1 c2 : Car)
  (p1 p2 : list R) :
  run f c = Ok (p1, c1) ->
  run g c = Ok (p2, c2) ->
  p1 = p2 /\ pos c1 = pos c2 /\
  last_pos c1 = last_pos c2 /\ last_vel c1 = last_vel c2.
Proof.
  intros H1 H2.
  pose proof (run_frame _ _ _ _ H1) as (_ & _ & Hlp1 & Hlv1 & _).
  pose proof (run_frame _ _ _ _ H2) as (_ & _ & Hlp2 & Hlv2 & _).
  pose proof (run_cases _ _ _ _ H1) as (a1 & Ho1 & _).
  pose proof (run_cases _ _ _ _ H2) as (a2 & Ho2 & _).
  apply run_outcome in H1. apply run_outcome in H2.
  split; [congruence|]. split; [|split; congruence].
  destruct H1 as (_ & _ & _ & [(HL1 & Hp1 & _)|(HL1 & Hp1 & _)]);
    destruct H2 as (_ & _ & _ & [(HL2 & Hp2 & _)|(HL2 & Hp2 & _)]);
    try contradiction; congruence.
Qed.

Lemma position_ignores_decision_witness :
  exists p1 p2 c2,
    run decide10 car0 = Ok (p2, c2) /\
    (p1 = p2 /\ pos trip1 = pos c2 /\
     last_pos trip1 = last_pos c2 /\ last_vel trip1 = last_vel c2).
Proof.
  destruct (proj1 (steps_1 _ _ _) trip_step1) as [p1 H1].
  destruct (proj1 (steps_1 _ _ _) scenario_legal_step) as [p2 H2].
  exists p1, p2. eexists. split; [exact H2|].
  exact (position_ignores_decision decide12 decide10 car0 trip1 _ p1 p2 H1 H2).
Defined.

Lemma steps_forward f n : forall c0 c,
  (exists h, pos_history c0 = h ++ [pos c0]) ->
  (forall p, In p (pos_history c0) -> fst p <= fst (pos c0)) ->
  steps f n c0 = Ok c ->
  (exists h, pos_history c = h ++ [pos c]) /\
  (forall p, In p (pos_history c) -> fst p <= fst (pos c)).
Proof.
  induction n as [|n IH]; intros c0 c Hlast Hmax H.
  - simpl in H. injection H as <-. split; assumption.
  - rewrite steps_S in H.
    destruct (run f c0) as [[params c1]|e] eqn:E; [|discriminate].
    pose proof (run_displacement _ _ _ _ E) as [[Hfw _] _].
    apply run_frame in E. destruct E as (_ & _ & _ & _ & Hp & _).
    apply (IH c1 c); [eauto | | assumption].
    intros p Hin. rewrite Hp in Hin. apply in_app_or in Hin.
    destruct Hin as [Hin|[<-|[]]]; [|lra].
    specialize (Hmax p Hin). lra.
Qed.

(** X14.  For a car that has made any number of steps since it was built,
    the distance that [utility] reports is the forward coordinate the car
    has now, and the step index it reports is [-1] or one of the steps
    made. *)
Theorem utility_reports_current_x (f : list R -> result (list R)) (n : nat)
  (c0 c : Car) :
  pos_history c0 = [pos c0] ->
  steps f n c0 = Ok c ->
  exists t, utility c = Ok ((fst (pos c), t), c) /\ (-1 <= t <= Z.of_nat n)%Z.
Proof.
  intros Hh H.
  destruct (steps_forward f n c0 c) as ([h Hlast] & Hmax); try assumption.
  { exists []. assumption. }
  { rewrite Hh. intros p [<-|[]]. lra. }
  pose proof (steps_frame f n c0 c H) as (_ & _ & Hlen & _).
  rewrite Hh in Hlen. cbn [length] in Hlen.
  assert (Hne : map fst (pos_history c) <> []).
  { rewrite Hlast, map_app. intros E. apply app_eq_nil in E. destruct E. discriminate. }
  destruct (argmax_spec _ Hne) as (k & Hk & Hkl & Hm & Hub & _).
  rewrite length_map in Hkl, Hub.
  assert (Hnth : forall j, nth j (map fst (pos_history c)) 0
                           = fst (nth j (pos_history c) (0, 0))).
  { intros j. change 0 with (fst (0, 0)) at 1. apply map_nth. }
  assert (Hval : nth k (map fst (pos_history c)) 0 = fst (pos c)).
  { apply Rle_antisym.
    - rewrite Hnth. apply Hmax. apply nth_In. assumption.
    - assert (Hin : In (pos c) (pos_history c))
        by (rewrite Hlast; apply in_or_app; right; left; reflexivity).
      apply (In_nth _ _ (0, 0)) in Hin. destruct Hin as (j & Hj & Hpj).
      rewrite <- Hpj, <- Hnth. apply Hub. assumption. }
  rewrite utility_eq.
  destruct (pos_history c) as [|p0 h0] eqn:Eh.
  { destruct h; discriminate. }
  rewrite <- Eh in *. rewrite Hm, Hk, Hval.
  destruct (_ <=? _).
  - exists (Z.of_nat k). split; [reflexivity | lia].
  - exists (-1)%Z. split; [reflexivity | lia].
Qed.

Lemma utility_reports_current_x_witness :
  exists t, utility trip3 = Ok ((fst (pos trip3), t), trip3) /\
            (-1 <= t <= Z.of_nat 3)%Z.
Proof.
  exact (utility_reports_current_x decide12 3 car0 trip3 eq_refl trip_steps3).
Defined.

(** ** The constructor *)



(** ** The rays and the forward coordinate *)

Lemma mapR_ext {A B} (f g : A -> result B) l :
  (forall a, In a l -> f a = g a) -> mapR f l = mapR g l.
Proof.
  induction l as [|a l IH]; intros H; [reflexivity|].
  cbn [mapR]. rewrite (H a) by (left; reflexivity).
  rewrite IH by (intros; apply H; right; assumption). reflexivity.
Qed.

(** X16.  The rays are compared with the boundary arrays entry by entry,
    so the readings do not depend on where along the track the car is:
    on an aligned track two positions with one lateral coordinate read the
    same, whatever their forward coordinates. *)
Theorem readings_ignore_forward_coordinate (c : Car) (x x' y : R) (v : vec2) :
  aligned (track c) ->
  get_surrounding (x, y) v c = get_surrounding (x', y) v c.
Proof.
  intros Hal. rewrite !get_surrounding_eq. f_equal.
  unfold sensors. apply mapR_ext. intros i Hi. apply in_seq in Hi.
  assert (Hi' : (i < length eyes)%nat) by lia.
  assert (Hc : crossings (track c) (x, y) v i = crossings (track c) (x', y) v i).
  { rewrite !crossings_eq by assumption. reflexivity. }
  destruct (sensor_ok (track c) (x, y) v i Hal Hi') as (idx & Hidx & _ & ->).
  destruct (sensor_ok (track c) (x', y) v i Hal Hi') as (idx' & Hidx' & _ & ->).
  rewrite Hc, Hidx' in Hidx. injection Hidx as <-.
  unfold reading. destruct idx' as [|j [|j' idx']]; try reflexivity.
  now rewrite !euclid_sample.
Qed.

Lemma readings_ignore_forward_coordinate_witness :
  get_surrounding (1, 4) (1, 2) car14 = get_surrounding (15, 4) (1, 2) car14.
Proof.
  apply (readings_ignore_forward_coordinate car14 1 15 4 (1, 2)).
  split; reflexivity.
Defined.

(** ** Reading a track *)

Section ReadTrackFacts.

Context {cell : Type} (float : cell -> result R).

Lemma read_rows_ok rows : forall triples x y1 y2,
  Forall2 (reads_as cell float) rows triples ->
  read_rows cell float rows x y1 y2
  = Ok (x ++ map (fun t => fst (fst t)) triples,
        y1 ++ map (fun t => snd (fst t)) triples,
        y2 ++ map snd triples).
Proof.
  induction rows as [|row rows IH]; intros triples x y1 y2 H;
    inversion H as [|? abc ? triples' Hrow Hrest]; subst.
  - cbn. now rewrite !app_nil_r.
  - destruct Hrow as (c0 & c1 & c2 & E0 & F0 & E1 & F1 & E2 & F2).
    cbn [read_rows]. unfold index. rewrite E0, E1, E2. cbn [bindR].
    rewrite F0, F1, F2. cbn [bindR].
    rewrite (IH _ _ _ _ Hrest). cbn [map]. now rewrite <- !app_assoc.
Qed.

Lemma read_rows_inv rows : forall x y1 y2 r,
  read_rows cell float rows x y1 y2 = Ok r ->
  exists triples,
    Forall2 (reads_as cell float) rows triples /\
    r = (x ++ map (fun t => fst (fst t)) triples,
         y1 ++ map (fun t => snd (fst t)) triples,
         y2 ++ map snd triples).
Proof.
  induction rows as [|row rows IH]; intros x y1 y2 r H.
  - cbn in H. injection H as <-. exists []. split; [constructor|].
    cbn. now rewrite !app_nil_r.
  - cbn [read_rows] in H. unfold index in H.
    destruct (nth_error row 0) as [c0|] eqn:H0; [|discriminate]. cbn [bindR] in H.
    destruct (float c0) as [a|] eqn:F0; [|discriminate]. cbn [bindR] in H.
    destruct (nth_error row 1) as [c1|] eqn:H1; [|discriminate]. cbn [bindR] in H.
    destruct (float c1) as [b|] eqn:F1; [|discriminate]. cbn [bindR] in H.
    destruct (nth_error row 2) as [c2|] eqn:H2; [|discriminate]. cbn [bindR] in H.
    destruct (float c2) as [c|] eqn:F2; [|discriminate]. cbn [bindR] in H.
    destruct (IH _ _ _ _ H) as (triples & HF & ->).
    exists ((a, b, c) :: triples). split.
    + constructor; [|assumption]. exists c0, c1, c2. cbn [fst snd]. repeat split; assumption.
    + cbn [map fst snd]. now rewrite <- !app_assoc.
Qed.

Lemma read_rows_short rows : forall x y1 y2,
  (forall d, exists r, float d = Ok r) ->
  Exists (fun row => (length row < 3)%nat) rows ->
  read_rows cell float rows x y1 y2 = Raise IndexError.
Proof.
  intros x y1 y2 Htot Hex. revert x y1 y2.
  induction rows as [|row rows IH]; intros x y1 y2; [inversion Hex|].
  cbn [read_rows]. unfold index.
  destruct (nth_error row 0) as [c0|] eqn:H0; [|reflexivity]. cbn [bindR].
  destruct (Htot c0) as [a ->]. cbn [bindR].
  destruct (nth_error row 1) as [c1|] eqn:H1; [|reflexivity]. cbn [bindR].
  destruct (Htot c1) as [b ->]. cbn [bindR].
  destruct (nth_error row 2) as [c2|] eqn:H2; [|reflexivity]. cbn [bindR].
  destruct (Htot c2) as [c ->]. cbn [bindR].
  inversion Hex; subst.
  - assert (nth_error row 2 <> None) by congruence.
    apply nth_error_Some in H. lia.
  - apply IH. assumption.
Qed.

(** X17.  When every row holds at least three cells of which the first
    three are numbers, and [scale] holds at least two factors, [read_track]
    returns a track with one sample per row, in the order of the rows: the
    first numbers times [scale[0]] as positions, the second and the third
    times [scale[1]] as lower and upper boundary.  Further cells of a row
    and further entries of [scale] are ignored. *)
Theorem read_track_reads (rows : list (list cell)) (triples : list (R * R * R))
  (scale : list R) (s0 s1 : R) :
  Forall2 (reads_as cell float) rows triples ->
  nth_error scale 0 = Some s0 ->
  nth_error scale 1 = Some s1 ->
  read_track cell float rows scale
  = Ok (mkTrack (map (fun t => s0 * fst (fst t)) triples)
                (map (fun t => s1 * snd (fst t)) triples)
                (map (fun t => s1 * snd t) triples)).
Proof.
  intros HF H0 H1. unfold read_track.
  rewrite (read_rows_ok rows triples [] [] [] HF). cbn [bindR fst snd app].
  unfold index. rewrite H0, H1. cbn [bindR].
  now rewrite !map_map.
Qed.

(** X18.  Whenever [read_track] returns, its three arrays have one length,
    the number of rows; so on a car built on a track that was read,
    [get_surrounding] never raises, wherever it is asked to look from. *)
Theorem read_track_is_aligned (rows : list (list cell)) (scale : list R)
  (tr : Track) :
  read_track cell float rows scale = Ok tr ->
  length (xs tr) = length rows /\ aligned tr /\
  forall u c p v, init tr u = Ok c ->
                  exists ds, get_surrounding p v c = Ok (ds, c).
Proof.
  unfold read_track. intros H.
  destruct (read_rows cell float rows [] [] []) as [r|e] eqn:Er; [|discriminate].
  destruct (read_rows_inv _ _ _ _ _ Er) as (triples & HF & ->).
  cbn [bindR fst snd app] in H.
  destruct (index scale 0) as [s0|]; [|discriminate].
  destruct (index scale 1) as [s1|]; [|discriminate].
  cbn [bindR] in H. injection H as <-.
  assert (Hlen : length triples = length rows)
    by (symmetry; eapply Forall2_length; eassumption).
  assert (Hal : aligned
                  (mkTrack (map (Rmult s0) (map (fun t => fst (fst t)) triples))
                           (map (Rmult s1) (map (fun t => snd (fst t)) triples))
                           (map (Rmult s1) (map snd triples)))).
  { unfold aligned. cbn [xs lower upper]. now rewrite !length_map. }
  split; [cbn [xs]; now rewrite !length_map|]. split; [assumption|].
  intros u c p v Hinit.
  assert (Htr : track c = mkTrack (map (Rmult s0) (map (fun t => fst (fst t)) triples))
                                  (map (Rmult s1) (map (fun t => snd (fst t)) triples))
                                  (map (Rmult s1) (map snd triples))).
  { unfold init in Hinit.
    destruct (xs _) as [|? ?]; [discriminate|].
    destruct (lower _) as [|? ?]; [discriminate|].
    destruct (upper _) as [|? ?]; [discriminate|].
    injection Hinit as <-. reflexivity. }
  rewrite <- Htr in Hal.
  destruct (get_surrounding_ok p v c Hal) as (ds & Hg & _). eauto.
Qed.

Lemma read_rows_total rows : forall x y1 y2,
  (forall d, exists r, float d = Ok r) ->
  Forall (fun row => (3 <= length row)%nat) rows ->
  exists r, read_rows cell float rows x y1 y2 = Ok r.
Proof.
  intros x y1 y2 Htot Hall. revert x y1 y2.
  induction rows as [|row rows IH]; intros x y1 y2; [cbn; eauto|].
  inversion Hall as [|? ? Hrow Hrest]; subst.
  cbn [read_rows]. unfold index.
  destruct (nth_error row 0) as [c0|] eqn:E0; [|apply nth_error_None in E0; lia].
  destruct (nth_error row 1) as [c1|] eqn:E1; [|apply nth_error_None in E1; lia].
  destruct (nth_error row 2) as [c2|] eqn:E2; [|apply nth_error_None in E2; lia].
  cbn [bindR].
  destruct (Htot c0) as [a ->]. cbn [bindR].
  destruct (Htot c1) as [b ->]. cbn [bindR].
  destruct (Htot c2) as [c ->]. cbn [bindR].
  apply IH. assumption.
Qed.

(** X19.  With cells that all are numbers, [read_track] raises
    [IndexError] when a row holds fewer than three cells, and also when
    [scale] holds fewer than two factors. *)
Theorem read_track_index_errors (rows : list (list cell)) (scale : list R) :
  (forall d, exists r, float d = Ok r) ->
  Exists (fun row => (length row < 3)%nat) rows \/ (length scale < 2)%nat ->
  read_track cell float rows scale = Raise IndexError.
Proof.
  intros Htot H. unfold read_track.
  destruct (Exists_dec (fun row : list cell => (length row < 3)%nat) rows) as [Hex|Hnex].
  { intros row. destruct (lt_dec (length row) 3); [left | right]; assumption. }
  - now rewrite read_rows_short.
  - destruct H as [H|H]; [contradiction|].
    destruct (read_rows_total rows [] [] [] Htot) as [r ->].
    { apply Forall_Exists_neg in Hnex. eapply Forall_impl; [|exact Hnex].
      cbn. intros row Hrow. lia. }
    cbn [bindR]. unfold index.
    destruct scale as [|s0 [|s1 scale]]; cbn in *; try reflexivity. lia.
Qed.

(** X20.  A file without rows is read as the empty track, and on the
    empty track the constructor raises [IndexError] before anything is
    drawn. *)
Theorem read_track_empty_file (scale : list R) :
  (2 <= length scale)%nat ->
  read_track cell float [] scale = Ok (mkTrack [] [] []) /\
  forall u, init (mkTrack [] [] []) u = Raise IndexError.
Proof.
  intros H. split; [|reflexivity].
  destruct scale as [|s0 [|s1 scale]]; cbn in H; try lia. reflexivity.
Qed.

(** X21.  Positive scale factors keep the shape of the data: positions
    that grow strictly in the file grow strictly in the track, and a lower
    value below the upper one in every row stays below it at every
    sample. *)
Theorem read_track_keeps_order (rows : list (list cell))
  (triples : list (R * R * R)) (scale : list R) (s0 s1 : R) :
  Forall2 (reads_as cell float) rows triples ->
  nth_error scale 0 = Some s0 -> nth_error scale 1 = Some s1 ->
  0 < s0 -> 0 < s1 ->
  exists tr,
    read_track cell float rows scale = Ok tr /\
    (increasing (map (fun t => fst (fst t)) triples) -> increasing (xs tr)) /\
    ((forall t, In t triples -> snd (fst t) < snd t) ->
     forall k, (k < length (xs tr))%nat -> nth k (lower tr) 0 < nth k (upper tr) 0).
Proof.
  intros HF H0 H1 Hs0 Hs1. unfold read_track.
  rewrite (read_rows_ok rows triples [] [] [] HF). cbn [bindR fst snd app].
  unfold index. rewrite H0, H1. cbn [bindR].
  eexists. split; [reflexivity|]. cbn [xs lower upper].
  assert (Hmul : forall s l k, nth k (map (Rmult s) l) 0 = s * nth k l 0).
  { intros s l k. rewrite <- (Rmult_0_r s) at 1. apply map_nth. }
  split.
  - intros Hinc i j Hij. rewrite !length_map in Hij.
    rewrite !Hmul. apply Rmult_lt_compat_l; [assumption|].
    apply Hinc. now rewrite length_map.
  - intros Hlt k Hk. rewrite !length_map in Hk. rewrite !Hmul.
    apply Rmult_lt_compat_l; [assumption|].
    rewrite (map_nth (fun t : R * R * R => snd (fst t)) triples (0, 0, 0) k
             : nth k (map (fun t => snd (fst t)) triples) 0 = _).
    rewrite (map_nth (@snd (R * R) R) triples (0, 0, 0) k
             : nth k (map snd triples) 0 = _).
    apply Hlt. apply nth_In. assumption.
Qed.

End ReadTrackFacts.

Lemma rows3_read :
  Forall2 (reads_as R Ok) rows3 [(0, 0, 1); (1 / 2, 0, 1); (1, 0, 1)].
Proof.
  unfold rows3. repeat constructor.
  - exists 0, 0, 1. repeat split.
  - exists (1 / 2), 0, 1. repeat split.
  - exists 1, 0, 1. repeat split.
Qed.

Lemma read_track_reads_witness :
  read_track R Ok rows3 [1000; 600]
  = Ok (mkTrack (map (fun t => 1000 * fst (fst t)) [(0, 0, 1); (1 / 2, 0, 1); (1, 0, 1)])
                (map (fun t => 600 * snd (fst t)) [(0, 0, 1); (1 / 2, 0, 1); (1, 0, 1)])
                (map (fun t => 600 * snd t) [(0, 0, 1); (1 / 2, 0, 1); (1, 0, 1)])).
Proof.
  exact (read_track_reads Ok rows3 _ [1000; 600] 1000 600 rows3_read eq_refl eq_refl).
Defined.

Lemma read_track_is_aligned_witness :
  exists tr,
    read_track R Ok rows3 [1000; 600] = Ok tr /\
    (length (xs tr) = length rows3 /\ aligned tr /\
     forall u c p v, init tr u = Ok c ->
                     exists ds, get_surrounding p v c = Ok (ds, c)).
Proof.
  eexists. split; [reflexivity|].
  apply (read_track_is_aligned Ok rows3 [1000; 600]). reflexivity.
Defined.

Lemma read_track_index_errors_witness :
  read_track R Ok [[0; 0; 1]; [1; 0]] [1000; 600] = Raise IndexError.
Proof.
  apply (read_track_index_errors Ok).
  - intros d. exists d. reflexivity.
  - left. apply Exists_cons_tl. apply Exists_cons_hd. cbn. lia.
Defined.

Lemma read_track_empty_file_witness :
  read_track R Ok [] [1000; 600] = Ok (mkTrack [] [] []) /\
  forall u, init (mkTrack [] [] []) u = Raise IndexError.
Proof. apply (read_track_empty_file Ok [1000; 600]). cbn. lia. Defined.

Lemma read_track_keeps_order_witness :
  exists tr,
    read_track R Ok rows3 [1000; 600] = Ok tr /\
    (increasing (map (fun t => fst (fst t)) [(0, 0, 1); (1 / 2, 0, 1); (1, 0, 1)])
     -> increasing (xs tr)) /\
    ((forall t, In t [(0, 0, 1); (1 / 2, 0, 1); (1, 0, 1)] -> snd (fst t) < snd t) ->
     forall k, (k < length (xs tr))%nat -> nth k (lower tr) 0 < nth k (upper tr) 0).
Proof.
  apply (read_track_keeps_order Ok rows3 _ [1000; 600] 1000 600 rows3_read
           eq_refl eq_refl); lra.
Defined.
